(** * simplelru: a shallow embedding of [simplelru/lruImpl.go]

    The Go package keeps an index [cache : map[interface{}]*list.Element]
    next to a [container/list] recency list.  The embedding keeps both, and
    the pointers between them:

    - a [*list.Element] is a nullable handle ([option handle], [None] is
      Go's [nil]);
    - [elems] is the store of the elements that exist, giving each one its
      [Value] (always an [*entry] in this package);
    - [evictList] is the sequence of the elements linked into the list,
      front first; an element [e] satisfies [e.list == l] exactly when its
      handle occurs in [evictList];
    - dereferencing a nil pointer is the run-time panic of Go, the [Panic]
      result below;
    - the eviction callback is kept as a flag (nil or not) together with the
      trace [evicted] of the calls made to it;
    - [time.Now()] is the extra argument [now] of the operations that read
      the clock: an instant in nanoseconds on the monotonic clock, so that
      [time.Since t] is [now - t];
    - [int] is the 64-bit signed integer of Go with its wrap-around. *)

From stdpp Require Import gmap strings list fin_maps.

#[local] Open Scope Z_scope.

Module simplelru.

(** ** Values of type [interface{}]

    Keys and values are dynamically typed.  The nil interface, integers and
    strings are kept: they are the comparable values the package is used
    with, and [k == nil] is decided on them. *)

Inductive iface : Type :=
  | INil
  | IInt (n : Z)
  | IStr (s : string).

#[global] Instance iface_eq_dec : EqDecision iface.
Proof. solve_decision. Defined.

#[global] Instance iface_countable : Countable iface.
Proof.
  refine (inj_countable'
    (λ x, match x with
          | INil => inl ()
          | IInt n => inr (inl n)
          | IStr s => inr (inr s)
          end)
    (λ y, match y with
          | inl _ => INil
          | inr (inl n) => IInt n
          | inr (inr s) => IStr s
          end) _).
  by intros [].
Defined.

(** ** Panics *)

Inductive result (A : Type) : Type :=
  | Ok (a : A)
  | Panic.

Arguments Ok {A} a.
Arguments Panic {A}.

Definition bind {A B : Type} (r : result A) (f : A → result B) : result B :=
  match r with
  | Ok a => f a
  | Panic => Panic
  end.

Notation "x <- r ;; k" := (bind r (λ x, k))
  (at level 100, r at next level, right associativity).

(** ** Machine integers *)

Definition int_min : Z := - 2 ^ 63.
Definition int_max : Z := 2 ^ 63 - 1.

(** The value of an [int] expression whose mathematical value is [z]. *)
Definition wrap_int (z : Z) : Z := (z + 2 ^ 63) mod 2 ^ 64 - 2 ^ 63.

(** ** Time *)

(** [time.Since(t)] read at the instant [now], in nanoseconds.  Both
    instants come from [time.Now()] in one process, so their difference is
    far from the bounds at which [Time.Sub] saturates. *)
Definition since (now t : Z) : Z := now - t.

(** ** The data of the package *)

Definition NoLimitSize : Z := 0.
Definition NoLimitTTL : Z := 0.

Definition handle : Type := positive.

Record entry : Type := Entry {
  key : iface;
  value : iface;
  updatedAt : Z
}.

Record LRU : Type := mkLRU {
  size : Z;
  ttl : Z;
  cache : gmap iface (option handle);
  evictList : list handle;
  elems : gmap handle entry;
  onEvicted : bool;
  evicted : list (iface * iface)
}.

Definition set_size (n : Z) (c : LRU) : LRU :=
  mkLRU n (ttl c) (cache c) (evictList c) (elems c) (onEvicted c) (evicted c).

Definition set_cache (m : gmap iface (option handle)) (c : LRU) : LRU :=
  mkLRU (size c) (ttl c) m (evictList c) (elems c) (onEvicted c) (evicted c).

Definition set_evictList (l : list handle) (c : LRU) : LRU :=
  mkLRU (size c) (ttl c) (cache c) l (elems c) (onEvicted c) (evicted c).

Definition set_elems (h : gmap handle entry) (c : LRU) : LRU :=
  mkLRU (size c) (ttl c) (cache c) (evictList c) h (onEvicted c) (evicted c).

(** [c.onEvicted(k, v)] when the callback is not nil. *)
Definition call_onEvicted (k v : iface) (c : LRU) : LRU :=
  if onEvicted c
  then mkLRU (size c) (ttl c) (cache c) (evictList c) (elems c) (onEvicted c)
             (evicted c ++ [(k, v)])
  else c.

(** ** [container/list] *)

(** [e.Value.( *entry)]: panics on a nil element. *)
Definition deref (c : LRU) (e : option handle) : result entry :=
  match e with
  | None => Panic
  | Some h =>
      match elems c !! h with
      | Some kv => Ok kv
      | None => Panic
      end
  end.

(** [e.Value = kv] *)
Definition store_Value (c : LRU) (e : option handle) (kv : entry) : result LRU :=
  match e with
  | None => Panic
  | Some h => Ok (set_elems (<[h := kv]> (elems c)) c)
  end.

Definition unlink (h : handle) (l : list handle) : list handle :=
  filter (λ h', h' ≠ h) l.

(** [l.MoveToFront(e)]: reads [e.list], so a nil [e] panics; an element that
    is not linked into [l] is left alone. *)
Definition MoveToFront (c : LRU) (e : option handle) : result LRU :=
  match e with
  | None => Panic
  | Some h =>
      if decide (h ∈ evictList c)
      then Ok (set_evictList (h :: unlink h (evictList c)) c)
      else Ok c
  end.

(** [l.Remove(e)] *)
Definition list_Remove (c : LRU) (e : option handle) : result LRU :=
  match e with
  | None => Panic
  | Some h => Ok (set_evictList (unlink h (evictList c)) c)
  end.

(** [l.Back()] *)
Definition Back (c : LRU) : option handle := last (evictList c).

(** ** The operations of [LRU] *)

(** [NewLRU] (lruImpl.go:35-51); the error it returns is always nil. *)
Definition NewLRU (sz : Z) (t : Z) (onEvict : bool) : LRU :=
  {| size := if sz <=? NoLimitSize then NoLimitSize else sz;
     ttl := if t <=? NoLimitTTL then NoLimitTTL else t;
     cache := ∅;
     evictList := [];
     elems := ∅;
     onEvicted := onEvict;
     evicted := [] |}.

(** [Len] (lruImpl.go:126-128) *)
Definition Len (c : LRU) : Z := Z.of_nat (length (evictList c)).

(** [expired] (lruImpl.go:184-196): a key that is not in the index counts
    as expired once a TTL is set. *)
Definition expired (c : LRU) (now : Z) (k : iface) : result bool :=
  if decide (ttl c = NoLimitTTL) then Ok false
  else
    match cache c !! k with
    | Some item =>
        kv <- deref c item;;
        if since now (updatedAt kv) <=? ttl c then Ok false else Ok true
    | None => Ok true
    end.

(** [removeElement] (lruImpl.go:172-182) *)
Definition removeElement (c : LRU) (e : option handle) : result LRU :=
  c1 <- list_Remove c e;;
  kv <- deref c1 e;;
  let c2 := set_cache (delete (key kv) (cache c1)) c1 in
  Ok (call_onEvicted (key kv) (value kv) c2).

(** [removeOldest] (lruImpl.go:164-170) *)
Definition removeOldest (c : LRU) : result LRU :=
  match Back c with
  | Some h => removeElement c (Some h)
  | None => Ok c
  end.

(** The guard of the eviction in [Set]:
    [c.size != NoLimitSize && c.evictList.Len() > c.size]. *)
Definition over_capacity (c : LRU) : bool :=
  negb (bool_decide (size c = NoLimitSize)) && (size c <? Len c).

(** [Set] (lruImpl.go:54-78); the name is a keyword of Rocq, hence the
    underscore.  The eviction is an [if], it runs at most once. *)
Definition Set_ (c : LRU) (now : Z) (k v : iface) : result LRU :=
  if decide (k = INil ∨ v = INil) then Ok c
  else
    let e := Entry k v now in
    c1 <- match cache c !! k with
         | Some item =>
             c' <- store_Value c item e;;
             MoveToFront c' item
         | None =>
             (* [c.cache[k] = item], where [item] is the zero value that the
                failed lookup has just bound: the nil element *)
             Ok (set_cache (<[k := None]> (cache c)) c)
         end;;
    if over_capacity c1
    then removeOldest c1
    else Ok c1.

(** [Get] (lruImpl.go:80-89): [expired] is called only when the key is in
    the index; the bare [return] gives [(nil, false)]. *)
Definition Get (c : LRU) (now : Z) (k : iface) : result (iface * bool * LRU) :=
  match cache c !! k with
  | Some item =>
      ex <- expired c now k;;
      if ex then Ok (INil, false, c)
      else
        c1 <- MoveToFront c item;;
        kv <- deref c1 item;;
        if decide (value kv = INil) then Ok (INil, false, c1)
        else Ok (value kv, true, c1)
  | None => Ok (INil, false, c)
  end.

(** [Contains] (lruImpl.go:91-94) *)
Definition Contains (c : LRU) (now : Z) (k : iface) : result bool :=
  match cache c !! k with
  | Some _ => ex <- expired c now k;; Ok (negb ex)
  | None => Ok false
  end.

(** [Peek] (lruImpl.go:97-106).  The lookup assigns the named result [ok];
    the final [return nil, ok] hands it back as it is. *)
Definition Peek (c : LRU) (now : Z) (k : iface) : result (iface * bool) :=
  match cache c !! k with
  | Some item =>
      ex <- expired c now k;;
      if ex then Ok (INil, true)
      else kv <- deref c item;; Ok (value kv, true)
  | None => Ok (INil, false)
  end.

(** [Remove] (lruImpl.go:108-114) *)
Definition Remove (c : LRU) (k : iface) : result (bool * LRU) :=
  match cache c !! k with
  | Some item => c' <- removeElement c item;; Ok (true, c')
  | None => Ok (false, c)
  end.

(** [RemoveOldest] (lruImpl.go:116-124) *)
Definition RemoveOldest (c : LRU) : result (iface * iface * bool * LRU) :=
  match Back c with
  | Some h =>
      c' <- removeElement c (Some h);;
      kv <- deref c' (Some h);;
      Ok (key kv, value kv, true, c')
  | None => Ok (INil, INil, false, c)
  end.

(** The loop of [Keys] (lruImpl.go:131-139): [items] are the elements from
    the current one towards the front, [keys] the slice built so far. *)
Fixpoint Keys_loop (c : LRU) (now : Z) (items : list handle)
    (keys : list iface) : result (list iface) :=
  match items with
  | [] => Ok keys
  | item :: prev =>
      kv <- deref c (Some item);;
      ex <- expired c now (key kv);;
      if ex then Ok keys
      else Keys_loop c now prev (keys ++ [key kv])
  end.

Definition Keys (c : LRU) (now : Z) : result (list iface) :=
  Keys_loop c now (reverse (evictList c)) [].

(** One round of the [range] loop of [Purge] (lruImpl.go:141-150).  Go
    leaves the order of the iteration open; [map_to_list] fixes one. *)
Definition Purge_step (r : result LRU) (kv : iface * option handle) : result LRU :=
  c <- r;;
  c1 <- (if onEvicted c
        then e <- deref c kv.2;; Ok (call_onEvicted kv.1 (value e) c)
        else Ok c);;
  Ok (set_cache (delete kv.1 (cache c1)) c1).

(** After the loop, [c.evictList.Init()] empties the list. *)
Definition Purge (c : LRU) : result LRU :=
  c' <- foldl Purge_step (Ok c) (map_to_list (cache c));;
  Ok (set_evictList [] c').

(** The [for] loop of [Resize]. *)
Fixpoint removeOldest_times (n : nat) (c : LRU) : result LRU :=
  match n with
  | O => Ok c
  | S n' => c' <- removeOldest c;; removeOldest_times n' c'
  end.

(** [Resize] (lruImpl.go:152-162) *)
Definition Resize (c : LRU) (sz : Z) : result (Z * LRU) :=
  let diff := wrap_int (Len c - sz) in
  let diff := if diff <? 0 then 0 else diff in
  c' <- removeOldest_times (Z.to_nat diff) c;;
  Ok (diff, set_size sz c').

(** ** States that the public operations can produce

    A state is reachable when it is built by [NewLRU] and then changed by
    calls that return; a call that panics ends the program.  [Contains],
    [Peek], [Len] and [Keys] do not write to the cache. *)

Definition in_int (z : Z) : Prop := int_min ≤ z ≤ int_max.

Inductive reachable : LRU → Prop :=
  | reach_NewLRU sz t cb :
      in_int sz → in_int t → reachable (NewLRU sz t cb)
  | reach_Set c now k v c' :
      reachable c → Set_ c now k v = Ok c' → reachable c'
  | reach_Get c now k v ok c' :
      reachable c → Get c now k = Ok (v, ok, c') → reachable c'
  | reach_Remove c k ok c' :
      reachable c → Remove c k = Ok (ok, c') → reachable c'
  | reach_RemoveOldest c k v ok c' :
      reachable c → RemoveOldest c = Ok (k, v, ok, c') → reachable c'
  | reach_Purge c c' :
      reachable c → Purge c = Ok c' → reachable c'
  | reach_Resize c sz n c' :
      reachable c → in_int sz → Resize c sz = Ok (n, c') → reachable c'.

(** The invariant of the data model: the index and the recency list hold
    the same keys. *)
Definition index_list_inv (c : LRU) : Prop :=
  ∀ k : iface,
    is_Some (cache c !! k) ↔
    ∃ h kv, h ∈ evictList c ∧ elems c !! h = Some kv ∧ key kv = k.

(** What the reachable states look like: no element is ever created, the
    index holds nil pointers only. *)
Definition bare (c : LRU) : Prop :=
  evictList c = [] ∧ elems c = ∅ ∧ evicted c = [] ∧
  map_Forall (λ _ item, item = None) (cache c).

(** The recency list of a state is well formed when its elements exist and
    none is linked twice. *)
Definition list_ok (c : LRU) : Prop :=
  NoDup (evictList c) ∧ Forall (λ h, is_Some (elems c !! h)) (evictList c).

(** The key and value that the callback receives for an element. *)
Definition kv_of (c : LRU) (h : handle) : iface * iface :=
  match elems c !! h with
  | Some kv => (key kv, value kv)
  | None => (INil, INil)
  end.

Definition key_of (c : LRU) (h : handle) : iface := (kv_of c h).1.

(** An element whose key [expired] reports as [b]. *)
Definition expired_elem (c : LRU) (now : Z) (b : bool) (h : handle) : Prop :=
  ∃ kv, elems c !! h = Some kv ∧ expired c now (key kv) = Ok b.

(** ** Scenario states

    The states that hold entries are written out field by field: no call of
    the package links an element into the list (see [reachable_bare]
    below). *)

Definition a1 : handle := 1%positive.
Definition a2 : handle := 2%positive.
Definition a3 : handle := 3%positive.

(** A cache that holds [(1,"a")] written at 0 and [(2,"b")] written at 5,
    key 2 in front. *)
Definition two_entries (sz t : Z) : LRU :=
  {| size := sz;
     ttl := t;
     cache := {[ IInt 1 := Some a1; IInt 2 := Some a2 ]};
     evictList := [a2; a1];
     elems := {[ a1 := Entry (IInt 1) (IStr "a") 0;
                 a2 := Entry (IInt 2) (IStr "b") 5 ]};
     onEvicted := true;
     evicted := [] |}.

(** Three entries, front to back: key 3 written at 9, key 2 written at 0,
    key 1 written at 8. *)
Definition three_entries (t : Z) : LRU :=
  {| size := NoLimitSize;
     ttl := t;
     cache := {[ IInt 1 := Some a1; IInt 2 := Some a2; IInt 3 := Some a3 ]};
     evictList := [a3; a2; a1];
     elems := {[ a1 := Entry (IInt 1) (IStr "a") 8;
                 a2 := Entry (IInt 2) (IStr "b") 0;
                 a3 := Entry (IInt 3) (IStr "c") 9 ]};
     onEvicted := true;
     evicted := [] |}.

(** ** States as the data model means them

    A state is coherent when the index and the recency list describe the
    same entries: no element is linked twice, every linked element is the one
    the index keeps under its key, and every index entry is a linked element
    with that key. *)
Definition coherent (c : LRU) : Prop :=
  NoDup (evictList c) ∧
  Forall (λ h, ∃ kv, elems c !! h = Some kv ∧
                     cache c !! key kv = Some (Some h)) (evictList c) ∧
  map_Forall (λ k item, ∃ h kv, item = Some h ∧ h ∈ evictList c ∧
                                elems c !! h = Some kv ∧ key kv = k) (cache c).

(** The value that [Purge] hands to the callback for an index entry. *)
Definition value_at (c : LRU) (item : option handle) : iface :=
  match deref c item with
  | Ok kv => value kv
  | Panic => INil
  end.

(** Every stored entry has a key and a value that are not nil. *)
Definition entries_ok (c : LRU) : Prop :=
  ∀ h kv, elems c !! h = Some kv → key kv ≠ INil ∧ value kv ≠ INil.

(** Two states with the same TTL, callback and capacity. *)
Definition same_config (c c' : LRU) : Prop :=
  ttl c' = ttl c ∧ onEvicted c' = onEvicted c ∧ size c' = size c.

(** * Properties *)

(** ** Basic facts *)

Lemma bind_Ok {A B : Type} (r : result A) (f : A → result B) (b : B) :
  bind r f = Ok b → ∃ a, r = Ok a ∧ f a = Ok b.
Proof. destruct r as [a|]; simpl; [eauto | discriminate]. Qed.

Lemma Len_nonneg (c : LRU) : 0 ≤ Len c.
Proof. unfold Len. lia. Qed.

Lemma removeOldest_empty (c : LRU) : evictList c = [] → removeOldest c = Ok c.
Proof. intros H. unfold removeOldest, Back. by rewrite H. Qed.

Lemma removeOldest_times_empty (n : nat) (c : LRU) :
  evictList c = [] → removeOldest_times n c = Ok c.
Proof.
  intros H. induction n as [|n IH]; simpl; [done|].
  by rewrite removeOldest_empty.
Qed.

Lemma deref_bare (c : LRU) (e : option handle) : elems c = ∅ → deref c e = Panic.
Proof. intros H. destruct e as [h|]; simpl; [|done]. by rewrite H, lookup_empty. Qed.

(** ** Reachable states are bare *)

Lemma bare_NewLRU sz t cb : bare (NewLRU sz t cb).
Proof. repeat split. apply map_Forall_empty. Qed.

Lemma bare_Set c now k v c' : bare c → Set_ c now k v = Ok c' → bare c'.
Proof.
  intros (Hl & He & Hv & Hm) H. unfold Set_ in H.
  case_decide; [by simplify_eq|].
  destruct (cache c !! k) as [item|] eqn:Hk.
  - rewrite (Hm _ _ Hk) in H. discriminate.
  - simpl in H.
    rewrite removeOldest_empty in H by done.
    assert (c' = set_cache (<[k:=None]> (cache c)) c) as ->
      by (destruct (over_capacity _); congruence).
    repeat split; simpl; try done.
    by apply map_Forall_insert_2.
Qed.

Lemma bare_Get c now k v ok c' : bare c → Get c now k = Ok (v, ok, c') → bare c'.
Proof.
  intros Hb H. pose proof Hb as (Hl & He & Hv & Hm). unfold Get in H.
  destruct (cache c !! k) as [item|] eqn:Hk; [|by simplify_eq].
  rewrite (Hm _ _ Hk) in H. unfold expired in H. rewrite Hk in H.
  case_decide; simpl in H; [discriminate|].
  rewrite (Hm _ _ Hk) in H. discriminate.
Qed.

Lemma bare_Remove c k ok c' : bare c → Remove c k = Ok (ok, c') → bare c'.
Proof.
  intros Hb H. pose proof Hb as (Hl & He & Hv & Hm). unfold Remove in H.
  destruct (cache c !! k) as [item|] eqn:Hk; [|by simplify_eq].
  rewrite (Hm _ _ Hk) in H. discriminate.
Qed.

Lemma bare_RemoveOldest c k v ok c' :
  bare c → RemoveOldest c = Ok (k, v, ok, c') → bare c'.
Proof.
  intros Hb H. pose proof Hb as (Hl & He & Hv & Hm).
  unfold RemoveOldest, Back in H. rewrite Hl in H. simpl in H. by simplify_eq.
Qed.

Lemma bare_Purge_step c kv c' : bare c → Purge_step (Ok c) kv = Ok c' → bare c'.
Proof.
  intros (Hl & He & Hv & Hm) H. unfold Purge_step in H. simpl in H.
  destruct (onEvicted c).
  - rewrite deref_bare in H by done. discriminate.
  - simpl in H. simplify_eq. repeat split; simpl; try done.
    by apply map_Forall_delete.
Qed.

Lemma bare_Purge_loop (l : list (iface * option handle)) (r : result LRU) c' :
  (∀ c, r = Ok c → bare c) → foldl Purge_step r l = Ok c' → bare c'.
Proof.
  revert r. induction l as [|kv l IH]; intros r Hr H; simpl in H; [by apply Hr|].
  apply (IH _ ) in H; [done|].
  intros c1 H1. destruct r as [c|]; [|discriminate].
  eapply bare_Purge_step; [by apply Hr | done].
Qed.

Lemma bare_Purge c c' : bare c → Purge c = Ok c' → bare c'.
Proof.
  intros Hb H. unfold Purge in H.
  apply bind_Ok in H as (c1 & H1 & H2). simplify_eq.
  apply bare_Purge_loop in H1; [|by intros ? [= <-]].
  destruct H1 as (Hl & He & Hv & Hm). by repeat split.
Qed.

Lemma bare_Resize c sz n c' : bare c → Resize c sz = Ok (n, c') → bare c'.
Proof.
  intros Hb H. pose proof Hb as (Hl & He & Hv & Hm). unfold Resize in H.
  rewrite removeOldest_times_empty in H by done. simpl in H. simplify_eq.
  by repeat split.
Qed.

Lemma reachable_bare (c : LRU) : reachable c → bare c.
Proof.
  induction 1; eauto using bare_NewLRU, bare_Set, bare_Get, bare_Remove,
    bare_RemoveOldest, bare_Purge, bare_Resize.
Qed.

(** ** What the operations do on reachable states *)

Section on_reachable_states.
Variable c : LRU.
Hypothesis Hbare : bare c.

Lemma bare_Len : Len c = 0.
Proof. destruct Hbare as (Hl & _). unfold Len. by rewrite Hl. Qed.

Lemma bare_known_key k : is_Some (cache c !! k) → cache c !! k = Some None.
Proof.
  destruct Hbare as (_ & _ & _ & Hm). intros [item Hk].
  by rewrite Hk, (Hm _ _ Hk).
Qed.

Lemma bare_expired_known_key now k :
  is_Some (cache c !! k) →
  expired c now k = if decide (ttl c = NoLimitTTL) then Ok false else Panic.
Proof.
  intros Hk. unfold expired. rewrite (bare_known_key _ Hk).
  by case_decide.
Qed.

Lemma Set_new_key now k v :
  k ≠ INil → v ≠ INil → cache c !! k = None →
  Set_ c now k v = Ok (set_cache (<[k:=None]> (cache c)) c).
Proof.
  intros Hk Hv Hnew. destruct Hbare as (Hl & _). unfold Set_.
  rewrite decide_False by tauto. rewrite Hnew. simpl.
  rewrite removeOldest_empty by done. by destruct (over_capacity _).
Qed.

Lemma Set_known_key_panics now k v :
  k ≠ INil → v ≠ INil → is_Some (cache c !! k) → Set_ c now k v = Panic.
Proof.
  intros Hk Hv Hin. unfold Set_.
  rewrite decide_False by tauto. by rewrite (bare_known_key _ Hin).
Qed.

Lemma Get_known_key_panics now k : is_Some (cache c !! k) → Get c now k = Panic.
Proof.
  intros Hin. unfold Get.
  rewrite (bare_expired_known_key _ _ Hin), (bare_known_key _ Hin).
  by case_decide.
Qed.



Lemma Contains_known_key now k :
  is_Some (cache c !! k) →
  Contains c now k = if decide (ttl c = NoLimitTTL) then Ok true else Panic.
Proof.
  intros Hin. unfold Contains.
  rewrite (bare_expired_known_key _ _ Hin), (bare_known_key _ Hin).
  by case_decide.
Qed.


Lemma bare_index_list_inv : index_list_inv c ↔ cache c = ∅.
Proof.
  destruct Hbare as (Hl & _). split.
  - intros Hinv. apply map_empty. intros k.
    apply eq_None_not_Some. intros Hk.
    apply Hinv in Hk as (h & kv & Hh & _).
    rewrite Hl in Hh. by apply not_elem_of_nil in Hh.
  - intros Hm k. rewrite Hm, lookup_empty. split.
    + by intros [? ?].
    + intros (h & kv & Hh & _). rewrite Hl in Hh. by apply not_elem_of_nil in Hh.
Qed.
End on_reachable_states.

(** No sequence of calls makes [Set] followed by [Get] return the value. *)
Lemma Set_then_Get_on_reachable c now now' k v c' :
  reachable c → k ≠ INil → v ≠ INil →
  Set_ c now k v = Ok c' → Get c' now' k = Panic.
Proof.
  intros Hr Hk Hv HS. pose proof (reachable_bare _ Hr) as Hb.
  destruct (cache c !! k) as [item|] eqn:Hin.
  - rewrite (Set_known_key_panics c Hb now k v Hk Hv) in HS by eauto.
    discriminate.
  - pose proof (bare_Set _ _ _ _ _ Hb HS) as Hb'.
    rewrite (Set_new_key c Hb now k v Hk Hv Hin) in HS. simplify_eq.
    apply (Get_known_key_panics _ Hb').
    simpl. rewrite lookup_insert_eq. by eexists.
Qed.

(** The update path of [Set] does what the round trip needs: for a key that
    the index binds to a list element, on a cache without capacity limit,
    [Get] within the TTL returns the value just set. *)
Lemma Set_then_Get_known_key (c : LRU) (now now' : Z) (k v : iface) (h : handle) :
  k ≠ INil → v ≠ INil →
  cache c !! k = Some (Some h) →
  size c = NoLimitSize →
  ttl c = NoLimitTTL ∨ now' - now ≤ ttl c →
  ∃ c1 c2, Set_ c now k v = Ok c1 ∧ Get c1 now' k = Ok (v, true, c2).
Proof.
  intros Hk Hv Hin Hsize Httl.
  assert (∃ c1, Set_ c now k v = Ok c1 ∧ cache c1 = cache c ∧ ttl c1 = ttl c ∧
                elems c1 !! h = Some (Entry k v now)) as (c1 & HS & Hc & Ht & He).
  { unfold Set_. rewrite decide_False by tauto. rewrite Hin. simpl.
    unfold MoveToFront. simpl.
    case_decide; simpl; unfold over_capacity; simpl;
      rewrite bool_decide_eq_true_2 by done; simpl;
      eexists; (split; [reflexivity|]); simpl; by rewrite lookup_insert_eq. }
  assert (expired c1 now' k = Ok false) as Hex.
  { unfold expired, since. rewrite Hc, Hin, Ht. simpl. rewrite He. simpl.
    case_decide; [done|].
    destruct Httl as [?|Hle]; [done|].
    by rewrite (proj2 (Z.leb_le _ _) Hle). }
  exists c1. unfold Get. rewrite Hc, Hin, Hex. simpl.
  unfold MoveToFront.
  case_decide; simpl; rewrite He; simpl; rewrite decide_False by done;
    by eexists.
Qed.

(** The callback is never called and the list never grows. *)
Lemma reachable_never_evicts c : reachable c → evicted c = [] ∧ Len c = 0.
Proof.
  intros Hr. pose proof (reachable_bare _ Hr) as Hb.
  split; [apply Hb | by apply bare_Len].
Qed.

(** ** Evicting from the back *)

Lemma unlink_snoc (l : list handle) (h : handle) : h ∉ l → unlink h (l ++ [h]) = l.
Proof.
  intros Hh. unfold unlink. rewrite filter_app, filter_cons_False by naive_solver.
  rewrite filter_nil, app_nil_r.
  induction l as [|x l IH]; [done|].
  apply not_elem_of_cons in Hh as [Hx Hl].
  rewrite filter_cons_True by done. f_equal. by apply IH.
Qed.

Lemma removeOldest_snoc (c : LRU) (l : list handle) (h : handle) (kv : entry) :
  evictList c = l ++ [h] → h ∉ l → elems c !! h = Some kv →
  removeOldest c =
    Ok (call_onEvicted (key kv) (value kv)
          (set_cache (delete (key kv) (cache c)) (set_evictList l c))).
Proof.
  intros Hl Hh Hkv. unfold removeOldest, Back. rewrite Hl, last_snoc.
  unfold removeElement, list_Remove. simpl. rewrite Hkv. simpl.
  by rewrite Hl, unlink_snoc.
Qed.

Lemma removeOldest_times_add (a b : nat) (c : LRU) :
  removeOldest_times (a + b) c =
    (c' <- removeOldest_times a c;; removeOldest_times b c').
Proof.
  revert c. induction a as [|a IH]; intros c; simpl; [done|].
  destruct (removeOldest c) as [c1|]; simpl; [apply IH | done].
Qed.

(** Calling [removeOldest] once per element of [gone], the back of the
    list, leaves [keep] and reports [gone] to the callback, last one first. *)
Lemma removeOldest_times_back (gone keep : list handle) (c : LRU) :
  evictList c = keep ++ gone → NoDup (keep ++ gone) →
  Forall (λ h, is_Some (elems c !! h)) gone →
  ∃ c', removeOldest_times (length gone) c = Ok c' ∧
        evictList c' = keep ∧
        evicted c' = evicted c ++
          (if onEvicted c then kv_of c <$> reverse gone else []) ∧
        size c' = size c ∧ ttl c' = ttl c ∧ elems c' = elems c ∧
        onEvicted c' = onEvicted c ∧
        (∀ k, k ∉ key_of c <$> gone → cache c' !! k = cache c !! k) ∧
        (∀ k, k ∈ key_of c <$> gone → cache c' !! k = None).
Proof.
  revert c. induction gone as [|h gone IH] using rev_ind; intros c Hl Hnd Hel.
  - exists c. rewrite app_nil_r in Hl. simpl.
    repeat split; try done.
    + destruct (onEvicted c); simpl; by rewrite app_nil_r.
    + intros k Hk. by apply elem_of_nil in Hk.
  - apply Forall_app in Hel as [Hel Hh]. apply Forall_singleton in Hh as [kv Hkv].
    rewrite (assoc_L (++)) in Hl, Hnd.
    apply NoDup_app in Hnd as (Hnd & Hdisj & _).
    assert (h ∉ keep ++ gone) as Hnotin.
    { intros Hin. apply (Hdisj h Hin). by apply list_elem_of_singleton. }
    rewrite length_app, Nat.add_comm. simpl.
    rewrite (removeOldest_snoc c _ h kv Hl Hnotin Hkv). simpl.
    set (c1 := call_onEvicted _ _ _).
    assert (evictList c1 = keep ++ gone ∧ elems c1 = elems c ∧
            size c1 = size c ∧ ttl c1 = ttl c ∧ onEvicted c1 = onEvicted c ∧
            cache c1 = delete (key kv) (cache c) ∧
            evicted c1 = evicted c ++
              (if onEvicted c then [(key kv, value kv)] else []))
      as (Hl1 & He1 & Hs1 & Ht1 & Ho1 & Hc1 & Hv1).
    { subst c1. unfold call_onEvicted. simpl.
      destruct (onEvicted c) eqn:Ho; simpl; by rewrite ?app_nil_r, ?Ho. }
    destruct (IH c1) as (c' & Hrun & Hl' & Hv' & Hs' & Ht' & He' & Ho' & Hc' & Hd');
      [done | done | by rewrite He1 |].
    assert (∀ h', kv_of c1 h' = kv_of c h') as Hkvof
      by (intros h'; unfold kv_of; by rewrite He1).
    assert (key_of c1 <$> gone = key_of c <$> gone) as Hkeys
      by (apply list_fmap_ext; intros ? h' _; unfold key_of; by rewrite Hkvof).
    assert (kv_of c h = (key kv, value kv)) as Hkvh
      by (unfold kv_of; by rewrite Hkv).
    assert (key_of c h = key kv) as Hkh by (unfold key_of; by rewrite Hkvh).
    exists c'. rewrite Hrun, Hl', Hv', Hs', Ht', He', Ho', Hs1, Ht1, He1, Ho1, Hv1.
    repeat split; try done.
    + rewrite reverse_snoc, fmap_cons, Hkvh.
      rewrite (list_fmap_ext (kv_of c1) (kv_of c) (reverse gone))
        by (intros; apply Hkvof).
      destruct (onEvicted c); [by rewrite <-(assoc_L (++)) | by rewrite !app_nil_r].
    + intros k Hk. rewrite fmap_app, fmap_cons, Hkh in Hk.
      apply not_elem_of_app in Hk as [Hk1 Hk2].
      rewrite list_elem_of_singleton in Hk2.
      rewrite Hc' by (by rewrite Hkeys).
      by rewrite Hc1, lookup_delete_ne.
    + intros k Hk. rewrite fmap_app, fmap_cons, Hkh in Hk.
      destruct (decide (k ∈ key_of c <$> gone)) as [Hin|Hout].
      * apply Hd'. by rewrite Hkeys.
      * rewrite Hc' by (by rewrite Hkeys).
        apply elem_of_app in Hk as [Hk|Hk]; [done|].
        apply list_elem_of_singleton in Hk as ->.
        by rewrite Hc1, lookup_delete_eq.
Qed.

(** [n] calls of [removeOldest]: the last [n] elements go, or all of them
    when the list is shorter. *)
Lemma removeOldest_times_spec (n : nat) (c : LRU) :
  list_ok c →
  let keep := take (length (evictList c) - n) (evictList c) in
  let gone := drop (length (evictList c) - n) (evictList c) in
  ∃ c', removeOldest_times n c = Ok c' ∧
        evictList c' = keep ∧
        evicted c' = evicted c ++
          (if onEvicted c then kv_of c <$> reverse gone else []) ∧
        size c' = size c ∧ ttl c' = ttl c ∧ elems c' = elems c ∧
        onEvicted c' = onEvicted c ∧
        (∀ k, k ∉ key_of c <$> gone → cache c' !! k = cache c !! k) ∧
        (∀ k, k ∈ key_of c <$> gone → cache c' !! k = None).
Proof.
  intros [Hnd Hel] keep gone.
  assert (evictList c = keep ++ gone) as Hsplit
    by (subst keep gone; by rewrite take_drop).
  assert (Forall (λ h, is_Some (elems c !! h)) gone) as Hgone
    by (subst gone; by apply Forall_drop).
  assert (length gone = n ∨ (length gone < n)%nat ∧ keep = []) as Hcases.
  { subst keep gone. rewrite length_drop.
    destruct (decide (n ≤ length (evictList c))%nat); [left; lia | right].
    split; [lia|].
    by replace (length (evictList c) - n)%nat with 0%nat by lia. }
  clearbody keep gone.
  destruct (removeOldest_times_back gone keep c) as (c' & Hrun & Hkeep & Hrest);
    [done | by rewrite <-Hsplit | done |].
  exists c'. split; [|done].
  destruct Hcases as [<- | [Hlt ->]]; [done|].
  replace n with (length gone + (n - length gone))%nat by lia.
  rewrite removeOldest_times_add, Hrun. simpl.
  by apply removeOldest_times_empty.
Qed.

(** ** Machine arithmetic *)

Ltac solve_in_int := unfold in_int, int_min, int_max in *; lia.

Lemma wrap_int_small (z : Z) : in_int z → wrap_int z = z.
Proof.
  unfold in_int, int_min, int_max, wrap_int. intros Hz.
  rewrite Z.mod_small by lia. lia.
Qed.

Lemma clamp_max (z : Z) : (if z <? 0 then 0 else z) = Z.max 0 z.
Proof. destruct (Z.ltb_spec z 0); lia. Qed.

(** ** The scan of [Keys] *)

Lemma Keys_loop_unexpired (c : LRU) (now : Z) (live rest : list handle)
    (keys : list iface) :
  Forall (expired_elem c now false) live →
  Keys_loop c now (live ++ rest) keys =
    Keys_loop c now rest (keys ++ (key_of c <$> live)).
Proof.
  revert keys. induction live as [|h live IH]; intros keys Hlive; simpl.
  - by rewrite app_nil_r.
  - apply Forall_cons in Hlive as [(kv & Hkv & Hex) Hlive].
    rewrite Hkv. simpl. rewrite Hex. simpl.
    rewrite IH by done. rewrite <-(assoc_L (++)). simpl.
    unfold key_of at 2, kv_of. by rewrite Hkv.
Qed.

Lemma Keys_loop_expired (c : LRU) (now : Z) (h : handle) (rest : list handle)
    (keys : list iface) :
  expired_elem c now true h → Keys_loop c now (h :: rest) keys = Ok keys.
Proof. intros (kv & Hkv & Hex). simpl. rewrite Hkv. simpl. by rewrite Hex. Qed.

(** ** [Peek] and [Get] side by side *)

Lemma Peek_Get_unknown_key (c : LRU) (now : Z) (k : iface) :
  cache c !! k = None →
  Peek c now k = Ok (INil, false) ∧ Get c now k = Ok (INil, false, c).
Proof. intros Hk. unfold Peek, Get. by rewrite Hk. Qed.

Lemma Peek_Get_unexpired (c : LRU) (now : Z) (k : iface) (h : handle)
    (kv : entry) :
  cache c !! k = Some (Some h) → elems c !! h = Some kv → value kv ≠ INil →
  expired c now k = Ok false →
  Peek c now k = Ok (value kv, true) ∧
  ∃ c', Get c now k = Ok (value kv, true, c').
Proof.
  intros Hk Hh Hv Hex. unfold Peek, Get. rewrite Hk, Hex. simpl.
  rewrite Hh. simpl. split; [done|].
  case_decide; simpl; rewrite Hh; simpl; rewrite decide_False by done;
    by eexists.
Qed.

(** On an expired entry the two disagree on the flag. *)
Lemma Peek_Get_expired (c : LRU) (now : Z) (k : iface) (item : option handle) :
  cache c !! k = Some item → expired c now k = Ok true →
  Peek c now k = Ok (INil, true) ∧ Get c now k = Ok (INil, false, c).
Proof. intros Hk Hex. unfold Peek, Get. by rewrite Hk, Hex. Qed.

(** * The claims *)

(** C1.  The round trip [Set(k, v)] then [Get(k)] returning [(v, true)], and
    the insertion of a new key at the front of the recency list, evaluated on
    a new cache of capacity 2 without TTL: [Set(1, "a")] stores a nil element
    under the key and links nothing into the list, and the [Get(1)] that
    follows panics on that nil element. *)
Theorem Set_then_Get_panics :
  ∃ c1, Set_ (NewLRU 2 0 false) 0 (IInt 1) (IStr "a") = Ok c1 ∧
        cache c1 !! IInt 1 = Some None ∧
        evictList c1 = [] ∧
        Get c1 0 (IInt 1) = Panic.
Proof. eexists. split; [vm_compute; reflexivity|]. by vm_compute. Qed.

(** C2.  Totality of the public operations on reachable states, evaluated
    after one [Set(1, "a")] on a new cache: [Get], [Peek], [Remove], a second
    [Set] of the same key and [Purge] (callback present) all panic; with a
    TTL, so does [Contains]. *)
Theorem operations_panic_after_Set :
  (∃ c1, Set_ (NewLRU 2 0 true) 0 (IInt 1) (IStr "a") = Ok c1 ∧
         reachable c1 ∧
         Get c1 0 (IInt 1) = Panic ∧
         Peek c1 0 (IInt 1) = Panic ∧
         Remove c1 (IInt 1) = Panic ∧
         Set_ c1 0 (IInt 1) (IStr "b") = Panic ∧
         Purge c1 = Panic) ∧
  (∃ d1, Set_ (NewLRU 2 10 false) 0 (IInt 1) (IStr "a") = Ok d1 ∧
         reachable d1 ∧
         Contains d1 5 (IInt 1) = Panic ∧
         Get d1 5 (IInt 1) = Panic).
Proof.
  split; eexists; (split; [vm_compute; reflexivity|]).
  - split; [|by vm_compute].
    eapply (reach_Set (NewLRU 2 0 true) 0 (IInt 1) (IStr "a"));
      [constructor; solve_in_int | by vm_compute].
  - split; [|by vm_compute].
    eapply (reach_Set (NewLRU 2 10 false) 0 (IInt 1) (IStr "a"));
      [constructor; solve_in_int | by vm_compute].
Qed.

(** C3.  The invariant "a key is in the index exactly when an entry with
    that key is in the recency list" holds of a new cache and is lost by
    [Set(1, "a")]: in the state reached, key 1 is in the index, bound to the
    nil element, and the recency list is empty. *)
Theorem index_list_inv_broken_by_Set :
  index_list_inv (NewLRU 2 0 false) ∧
  ∃ c1, Set_ (NewLRU 2 0 false) 0 (IInt 1) (IStr "a") = Ok c1 ∧
        reachable c1 ∧
        cache c1 !! IInt 1 = Some None ∧
        evictList c1 = [] ∧
        ¬ index_list_inv c1.
Proof.
  split; [by apply bare_index_list_inv; [apply bare_NewLRU|]|].
  eexists. split; [vm_compute; reflexivity|].
  split; [|split; [by vm_compute|split; [by vm_compute|]]].
  - eapply (reach_Set (NewLRU 2 0 false) 0 (IInt 1) (IStr "a"));
      [constructor; solve_in_int | by vm_compute].
  - intros Hinv. destruct (proj1 (Hinv (IInt 1))) as (h & kv & Hh & _).
    + vm_compute. by eexists.
    + by apply elem_of_nil in Hh.
Qed.

(** C4.  The scenario of capacity 2 without TTL: after [Set(1, "a")],
    [Set(2, "b")], [Set(3, "c")] the callback has not been called, [Len()]
    is 0 and [Contains] answers true for the keys 1, 2 and 3. *)
Theorem capacity_scenario :
  ∃ c1 c2 c3,
    Set_ (NewLRU 2 0 true) 0 (IInt 1) (IStr "a") = Ok c1 ∧
    Set_ c1 1 (IInt 2) (IStr "b") = Ok c2 ∧
    Set_ c2 2 (IInt 3) (IStr "c") = Ok c3 ∧
    evicted c3 = [] ∧
    Len c3 = 0 ∧
    Contains c3 3 (IInt 1) = Ok true ∧
    Contains c3 3 (IInt 2) = Ok true ∧
    Contains c3 3 (IInt 3) = Ok true.
Proof.
  do 3 eexists.
  split; [vm_compute; reflexivity|].
  split; [vm_compute; reflexivity|].
  split; [vm_compute; reflexivity|].
  by vm_compute.
Qed.

(** C6.  [Peek] against [Get].  On a cache with TTL 10 that holds key 1
    written at time 0, at time 11 [Get(1)] answers [(nil, false)] and [Peek(1)]
    answers [(nil, true)]: the named result [ok] of [Peek] keeps the outcome
    of the lookup.  On the state reached by [Set(1, "a")] on a new cache,
    [Peek(1)] panics. *)
Theorem Peek_differs_from_Get :
  (Get (two_entries 0 10) 11 (IInt 1) = Ok (INil, false, two_entries 0 10) ∧
   Peek (two_entries 0 10) 11 (IInt 1) = Ok (INil, true)) ∧
  (∃ c1, Set_ (NewLRU 0 0 false) 0 (IInt 1) (IStr "a") = Ok c1 ∧
         Peek c1 0 (IInt 1) = Panic).
Proof.
  split; [by vm_compute|].
  eexists. split; [vm_compute; reflexivity | by vm_compute].
Qed.

(** C9.  [Set] with a nil key or a nil value returns at once: the state it
    hands back is the state it was given, index, recency list, capacity,
    timestamps and callback trace included. *)
Theorem Set_nil_is_noop (c : LRU) (now : Z) (k v : iface) :
  Set_ c now INil v = Ok c ∧ Set_ c now k INil = Ok c.
Proof. unfold Set_. split; by rewrite decide_True by tauto. Qed.

(** The comparison in [expired] on a state that holds the entry (no state
    that [reachable] admits does).  With a TTL set, the entry under a key is
    expired exactly when [now - updatedAt] is strictly greater than the TTL: [Get] up to and
    including [updatedAt + ttl] finds the value, [Get] after it answers
    not-found and hands back the cache as it was, the entry still in the index
    and in the list that [Len] counts. *)
Theorem expired_strictly_after_ttl
    (c : LRU) (k : iface) (h : handle) (kv : entry) (eps : Z) :
  ttl c ≠ NoLimitTTL →
  cache c !! k = Some (Some h) →
  elems c !! h = Some kv →
  value kv ≠ INil →
  (∀ now, expired c now k = Ok (bool_decide (ttl c < now - updatedAt kv))) ∧
  (0 ≤ eps →
     ∃ c', Get c (updatedAt kv + ttl c - eps) k = Ok (value kv, true, c')) ∧
  (0 < eps →
     ∃ c', Get c (updatedAt kv + ttl c + eps) k = Ok (INil, false, c') ∧
           c' = c ∧ Len c' = Len c ∧ cache c' !! k = Some (Some h) ∧
           Contains c' (updatedAt kv + ttl c + eps) k = Ok false).
Proof.
  intros Httl Hk Hh Hv.
  assert (∀ now, expired c now k = Ok (bool_decide (ttl c < now - updatedAt kv)))
    as Hexp.
  { intros now. unfold expired, since. rewrite decide_False by done.
    rewrite Hk. simpl. rewrite Hh. simpl.
    destruct (Z.leb_spec (now - updatedAt kv) (ttl c)).
    - by rewrite bool_decide_eq_false_2 by lia.
    - by rewrite bool_decide_eq_true_2 by lia. }
  split; [done|]. split.
  - intros Heps. unfold Get. rewrite Hk, Hexp.
    rewrite bool_decide_eq_false_2 by lia. simpl.
    case_decide; simpl; rewrite Hh; simpl;
      rewrite decide_False by done; by eexists.
  - intros Heps. exists c. unfold Get, Contains. rewrite Hk, Hexp.
    by rewrite bool_decide_eq_true_2 by lia.
Qed.

Lemma expired_strictly_after_ttl_witness :
  expired (two_entries 0 10) 10 (IInt 1) = Ok false ∧
  expired (two_entries 0 10) 11 (IInt 1) = Ok true ∧
  (∃ c', Get (two_entries 0 10) 9 (IInt 1) = Ok (IStr "a", true, c')) ∧
  Get (two_entries 0 10) 11 (IInt 1) = Ok (INil, false, two_entries 0 10) ∧
  Len (two_entries 0 10) = 2.
Proof.
  destruct (expired_strictly_after_ttl (two_entries 0 10) (IInt 1) a1
              (Entry (IInt 1) (IStr "a") 0) 1) as (Hexp & Hfound & Hgone);
    [done | done | done | done |].
  split; [exact (Hexp 10)|]. split; [exact (Hexp 11)|].
  split; [apply Hfound; lia|]. split; [|reflexivity].
  destruct Hgone as (c' & Hget & -> & _); [lia | exact Hget].
Defined.

(** The scan of [Keys] on a list that holds elements (no state that
    [reachable] admits has one).  When the list, read
    from the back, is [live ++ rest] with every element of [live] unexpired
    and [rest] empty or starting with an expired element, the result is the
    keys of [live], oldest first; whatever follows the first expired element
    is left out.  With no expired element ([rest] empty) every key is
    returned. *)
Theorem Keys_halts_at_first_expired
    (c : LRU) (now : Z) (live rest : list handle) :
  reverse (evictList c) = live ++ rest →
  Forall (expired_elem c now false) live →
  rest = [] ∨ (∃ h rest', rest = h :: rest' ∧ expired_elem c now true h) →
  Keys c now = Ok (key_of c <$> live).
Proof.
  intros Hsplit Hlive Hrest. unfold Keys.
  rewrite Hsplit, Keys_loop_unexpired by done. simpl.
  destruct Hrest as [-> | (h & rest' & -> & Hh)]; [done|].
  by apply Keys_loop_expired.
Qed.

Lemma Keys_halts_at_first_expired_witness :
  expired (three_entries 10) 11 (IInt 3) = Ok false ∧
  Keys (three_entries 10) 11 = Ok [IInt 1] ∧
  Keys (three_entries 10) 9 = Ok [IInt 1; IInt 2; IInt 3].
Proof.
  split; [reflexivity|]. split.
  - apply (Keys_halts_at_first_expired (three_entries 10) 11 [a1] [a2; a3]).
    + reflexivity.
    + apply Forall_singleton. by exists (Entry (IInt 1) (IStr "a") 8).
    + right. exists a2, [a3]. split; [done|].
      by exists (Entry (IInt 2) (IStr "b") 0).
  - apply (Keys_halts_at_first_expired (three_entries 10) 9 [a1; a2; a3] []).
    + reflexivity.
    + repeat apply Forall_cons_2; [| | |apply Forall_nil_2].
      * by exists (Entry (IInt 1) (IStr "a") 8).
      * by exists (Entry (IInt 2) (IStr "b") 0).
      * by exists (Entry (IInt 3) (IStr "c") 9).
    + by left.
Defined.

(** What [Resize] does on any well-formed list.  [Resize(newSize)] stores
    [newSize] as the
    capacity, whatever it is, and returns [d = max 0 (Len() - newSize)], the
    subtraction being the wrapping one of [int].  It removes the last
    [min d Len()] elements of the recency list, the back one first, and
    reports each to the callback.  For [newSize >= 0] that is exactly
    [Len() - newSize] entries when the length exceeds [newSize], and the
    number returned is the number evicted; nothing changes but the capacity
    when the length does not exceed [newSize]. *)
Theorem Resize_evicts_from_back (c : LRU) (sz : Z) :
  list_ok c → in_int sz → Len c ≤ int_max →
  let d := Z.max 0 (wrap_int (Len c - sz)) in
  let kept := (length (evictList c) - Z.to_nat d)%nat in
  let gone := drop kept (evictList c) in
  ∃ c', Resize c sz = Ok (d, c') ∧
        size c' = sz ∧
        evictList c' = take kept (evictList c) ∧
        evicted c' = evicted c ++
          (if onEvicted c then kv_of c <$> reverse gone else []) ∧
        (∀ k, k ∈ key_of c <$> gone → cache c' !! k = None) ∧
        (∀ k, k ∉ key_of c <$> gone → cache c' !! k = cache c !! k) ∧
        Z.of_nat (length gone) = Z.min d (Len c) ∧
        (0 ≤ sz → d = Z.max 0 (Len c - sz) ∧ Z.of_nat (length gone) = d) ∧
        (Len c ≤ sz → d = 0 ∧ c' = set_size sz c).
Proof.
  intros Hok Hsz HLen d kept gone.
  pose proof (Len_nonneg c) as Hnn.
  destruct (removeOldest_times_spec (Z.to_nat d) c Hok)
    as (c' & Hrun & Hl & Hv & _ & _ & _ & _ & Hkeep & Hdel).
  assert (Z.of_nat (length gone) = Z.min d (Len c)) as Hgone.
  { subst gone kept. rewrite length_drop. unfold Len in *. lia. }
  assert (0 ≤ sz → d = Z.max 0 (Len c - sz)) as Hd.
  { intros Hpos. subst d. rewrite wrap_int_small; [done | solve_in_int]. }
  exists (set_size sz c'). unfold Resize. rewrite clamp_max.
  fold d. rewrite Hrun. simpl.
  split; [done|]. split; [done|]. split; [done|]. split; [done|].
  split; [done|]. split; [done|]. split; [done|]. split.
  - intros Hpos. split; [by apply Hd | lia].
  - intros Hle.
    assert (d = 0) as Hd0.
    { destruct (decide (0 ≤ sz)); [rewrite Hd by done; lia|].
      subst d. rewrite wrap_int_small by solve_in_int. lia. }
    split; [done|]. rewrite Hd0 in Hrun. simpl in Hrun. by simplify_eq.
Qed.

Lemma Resize_evicts_from_back_witness :
  ∃ c', Resize (two_entries 5 0) 1 = Ok (1, c') ∧
        size c' = 1 ∧
        evictList c' = [a2] ∧
        evicted c' = [(IInt 1, IStr "a")] ∧
        cache c' !! IInt 1 = None.
Proof.
  destruct (Resize_evicts_from_back (two_entries 5 0) 1)
    as (c' & Hrun & Hsz & Hl & Hv & Hdel & _).
  - split; [compute_done|].
    repeat constructor; by eexists.
  - solve_in_int.
  - by vm_compute.
  - exists c'. repeat split; try done.
    apply Hdel. apply list_elem_of_singleton. reflexivity.
Defined.

(** [Resize] without its guards.  On a new cache [Resize(-1)] returns 1 and evicts
    nothing, so the number returned is not the number evicted; on a cache of
    two entries [Resize(0)], the unlimited capacity, evicts both and returns
    2, not 0. *)
Lemma Resize_counterexample :
  (Resize (NewLRU 0 0 true) (-1) = Ok (1, set_size (-1) (NewLRU 0 0 true)) ∧
   evicted (set_size (-1) (NewLRU 0 0 true)) = [] ∧
   Len (set_size (-1) (NewLRU 0 0 true)) = Len (NewLRU 0 0 true)) ∧
  (∃ c', Resize (two_entries 2 0) NoLimitSize = Ok (2, c') ∧
         evicted c' = [(IInt 1, IStr "a"); (IInt 2, IStr "b")] ∧
         evictList c' = []).
Proof.
  split; [by vm_compute|].
  eexists. split; [vm_compute; reflexivity | by vm_compute].
Qed.

(** C10 (as the code has it).  For a negative [n] with [Len() - n] within
    [int], [Resize(n)] returns [Len() - n], which is more than the [Len()]
    entries it removes (the list ends up empty), and leaves [n] itself as the
    capacity.  [NewLRU] would have stored 0 for such an [n]; with [n] stored,
    the guard of the eviction in [Set] holds in every later state. *)
Theorem Resize_negative_size (c : LRU) (n : Z) :
  list_ok c → int_min ≤ n < 0 → Len c - n ≤ int_max →
  ∃ c', Resize c n = Ok (Len c - n, c') ∧
        evictList c' = [] ∧
        Len c - Len c' < Len c - n ∧
        size c' = n ∧
        over_capacity c' = true ∧
        (∀ t cb, size (NewLRU n t cb) = NoLimitSize) ∧
        (∀ c'', size c'' = n → over_capacity c'' = true) ∧
        (∀ now k v, k ≠ INil → v ≠ INil → cache c' !! k = None →
           Set_ c' now k v =
             removeOldest (set_cache (<[k:=None]> (cache c')) c')).
Proof.
  intros Hok Hn Hfit.
  pose proof (Len_nonneg c) as Hnn.
  assert (wrap_int (Len c - n) = Len c - n) as Hw
    by (apply wrap_int_small; solve_in_int).
  destruct (removeOldest_times_spec (Z.to_nat (Len c - n)) c Hok)
    as (c' & Hrun & Hl & _).
  assert (evictList c' = []) as Hnil.
  { rewrite Hl. unfold Len in *.
    by replace (length (evictList c) - _)%nat with 0%nat by lia. }
  assert (∀ c'', size c'' = n → over_capacity c'' = true) as Hover.
  { intros c'' Hs. unfold over_capacity, NoLimitSize. rewrite Hs.
    pose proof (Len_nonneg c'').
    rewrite bool_decide_eq_false_2 by lia. simpl. by apply Z.ltb_lt; lia. }
  exists (set_size n c'). unfold Resize. rewrite clamp_max, Hw.
  rewrite Z.max_r by lia. rewrite Hrun. simpl.
  split; [done|]. split; [done|]. split.
  { unfold Len. simpl. rewrite Hnil. simpl. lia. }
  split; [done|]. split; [by apply Hover|]. split; [|split; [done|]].
  all: change (cache (set_size n c')) with (cache c').
  - intros t cb. unfold NewLRU, NoLimitSize. simpl.
    by rewrite (proj2 (Z.leb_le n 0)) by lia.
  - intros now k v Hk Hv Hnew. unfold Set_.
    rewrite decide_False by tauto.
    change (cache (set_size n c')) with (cache c'). rewrite Hnew. simpl.
    by rewrite (Hover (set_cache _ (set_size n c'))).
Qed.

Lemma Resize_negative_size_witness :
  ∃ c', Resize (two_entries 2 0) (-3) = Ok (5, c') ∧
        evictList c' = [] ∧ size c' = -3 ∧ over_capacity c' = true.
Proof.
  destruct (Resize_negative_size (two_entries 2 0) (-3))
    as (c' & Hrun & Hl & _ & Hsz & Hover & _).
  - split; [compute_done|].
    repeat constructor; by eexists.
  - solve_in_int.
  - by vm_compute.
  - exists c'. by repeat split.
Defined.

(** C10, as stated, fails at the least [int]: [Len() - n] wraps to a negative
    number, the loop does not run, and [Resize] returns 0, which is neither
    [Len() - n] nor more than the number of entries removed. *)
Lemma Resize_min_int_counterexample :
  Resize (NewLRU 0 0 true) int_min = Ok (0, set_size int_min (NewLRU 0 0 true)) ∧
  Len (NewLRU 0 0 true) - int_min = 2 ^ 63 ∧
  Len (NewLRU 0 0 true) - Len (set_size int_min (NewLRU 0 0 true)) = 0.
Proof. by vm_compute. Qed.

(** C5.  [Resize] returning the number of entries it evicted, and 0 when
    nothing needs evicting, evaluated on a new cache with a callback:
    [Resize(-1)] returns 1 although the list is empty, nothing is evicted and
    the callback is not called; it stores -1 as the capacity, where [NewLRU]
    stores 0 for the same argument and the check in [Set] sets 0 apart. *)
Theorem Resize_returns_more_than_evicted :
  reachable (NewLRU 0 0 true) ∧
  Len (NewLRU 0 0 true) = 0 ∧
  Resize (NewLRU 0 0 true) (-1) = Ok (1, set_size (-1) (NewLRU 0 0 true)) ∧
  evicted (set_size (-1) (NewLRU 0 0 true)) = [] ∧
  Len (set_size (-1) (NewLRU 0 0 true)) = 0 ∧
  size (set_size (-1) (NewLRU 0 0 true)) = -1 ∧
  size (NewLRU (-1) 0 true) = NoLimitSize.
Proof.
  split; [constructor; solve_in_int|]. by vm_compute.
Qed.

(** C7.  The TTL boundary, evaluated through [Set]: on a new cache with TTL
    10, after [Set("x", 1)] at time 0, [Get("x")] panics at time 9, inside the
    TTL, and at time 11, after it, and [Len()] is 0: no entry was stored that
    could expire, be found or be counted. *)
Theorem ttl_boundary_after_Set :
  ∃ c1, Set_ (NewLRU 0 10 false) 0 (IStr "x") (IInt 1) = Ok c1 ∧
        reachable c1 ∧
        Get c1 9 (IStr "x") = Panic ∧
        Get c1 11 (IStr "x") = Panic ∧
        Len c1 = 0.
Proof.
  eexists. split; [vm_compute; reflexivity|].
  split; [|by vm_compute].
  eapply (reach_Set (NewLRU 0 10 false) 0 (IStr "x") (IInt 1));
    [constructor; solve_in_int | by vm_compute].
Qed.

(** C8.  [Keys] returning every key, oldest first, when nothing is expired,
    evaluated through [Set]: on a new cache without TTL, after [Set(1, "a")]
    and [Set(2, "b")], [Contains] answers true for both keys and [Keys]
    returns the empty slice, the recency list that it scans being empty. *)
Theorem Keys_misses_set_keys :
  ∃ c1 c2, Set_ (NewLRU 0 0 false) 0 (IInt 1) (IStr "a") = Ok c1 ∧
           Set_ c1 1 (IInt 2) (IStr "b") = Ok c2 ∧
           reachable c2 ∧
           Contains c2 2 (IInt 1) = Ok true ∧
           Contains c2 2 (IInt 2) = Ok true ∧
           evictList c2 = [] ∧
           Keys c2 2 = Ok [].
Proof.
  do 2 eexists.
  split; [vm_compute; reflexivity|].
  split; [vm_compute; reflexivity|].
  split; [|by vm_compute].
  eapply (reach_Set _ 1 (IInt 2) (IStr "b"));
    [eapply (reach_Set (NewLRU 0 0 false) 0 (IInt 1) (IStr "a"));
       [constructor; solve_in_int | vm_compute; reflexivity]
    | by vm_compute].
Qed.

(** * More on the operations *)

(** ** Unlinking and moving to the front *)

Lemma elem_of_unlink (l : list handle) (h x : handle) :
  x ∈ unlink h l ↔ x ∈ l ∧ x ≠ h.
Proof. unfold unlink. rewrite list_elem_of_filter. tauto. Qed.

Lemma unlink_cons_eq (l : list handle) (h : handle) :
  unlink h (h :: l) = unlink h l.
Proof. unfold unlink. by rewrite filter_cons_False by naive_solver. Qed.

Lemma unlink_cons_ne (l : list handle) (h x : handle) :
  x ≠ h → unlink h (x :: l) = x :: unlink h l.
Proof. intros Hx. unfold unlink. by rewrite filter_cons_True by done. Qed.

Lemma unlink_notin (l : list handle) (h : handle) : h ∉ l → unlink h l = l.
Proof.
  intros Hh. induction l as [|x l IH]; [done|].
  apply not_elem_of_cons in Hh as [Hx Hl].
  rewrite unlink_cons_ne by done. f_equal. by apply IH.
Qed.

Lemma NoDup_unlink (l : list handle) (h : handle) : NoDup l → NoDup (unlink h l).
Proof. apply NoDup_filter. Qed.

Lemma unlink_perm (l : list handle) (h : handle) :
  NoDup l → h ∈ l → h :: unlink h l ≡ₚ l.
Proof.
  induction l as [|x l IH]; intros Hnd Hh; [by apply elem_of_nil in Hh|].
  apply NoDup_cons in Hnd as [Hx Hnd].
  destruct (decide (x = h)) as [->|Hne].
  - by rewrite unlink_cons_eq, (unlink_notin l h Hx).
  - rewrite unlink_cons_ne by done.
    apply elem_of_cons in Hh as [?|Hh]; [congruence|].
    rewrite Permutation_swap. by rewrite IH.
Qed.

Lemma length_unlink (l : list handle) (h : handle) :
  NoDup l → h ∈ l → S (length (unlink h l)) = length l.
Proof.
  intros Hnd Hh. by rewrite <-(Permutation_length (unlink_perm l h Hnd Hh)).
Qed.

(** ** Coherent states *)

Lemma coherent_fields (c c' : LRU) :
  evictList c' = evictList c → elems c' = elems c → cache c' = cache c →
  coherent c → coherent c'.
Proof. unfold coherent. by intros -> -> ->. Qed.

Lemma coherent_list_ok (c : LRU) : coherent c → list_ok c.
Proof.
  intros (Hnd & Hl & _). split; [done|].
  eapply Forall_impl; [exact Hl|]. intros h (kv & Hkv & _). by eexists.
Qed.

Lemma coherent_index (c : LRU) (k : iface) (item : option handle) :
  coherent c → cache c !! k = Some item →
  ∃ h kv, item = Some h ∧ h ∈ evictList c ∧ elems c !! h = Some kv ∧ key kv = k.
Proof. intros (_ & _ & Hm) Hk. exact (Hm k item Hk). Qed.

Lemma coherent_linked (c : LRU) (h : handle) :
  coherent c → h ∈ evictList c →
  ∃ kv, elems c !! h = Some kv ∧ cache c !! key kv = Some (Some h).
Proof.
  intros (_ & Hl & _) Hh. rewrite Forall_forall in Hl. by apply Hl.
Qed.

(** Moving a linked element to the front keeps a state coherent. *)
Lemma coherent_MoveToFront (c : LRU) (h : handle) :
  coherent c → h ∈ evictList c →
  coherent (set_evictList (h :: unlink h (evictList c)) c).
Proof.
  intros Hc Hh. pose proof Hc as (Hnd & Hl & Hm).
  pose proof (unlink_perm _ _ Hnd Hh) as Hperm.
  split; [|split]; simpl.
  - by rewrite Hperm.
  - by rewrite Hperm.
  - intros k item Hk. destruct (Hm k item Hk) as (h' & kv & -> & Hh' & Hkv & Hkey).
    exists h', kv. by rewrite Hperm.
Qed.

(** Unlinking an element and deleting its key keeps a state coherent. *)
Lemma coherent_unlink (c : LRU) (h : handle) (kv : entry) :
  coherent c → h ∈ evictList c → elems c !! h = Some kv →
  coherent (set_cache (delete (key kv) (cache c))
              (set_evictList (unlink h (evictList c)) c)).
Proof.
  intros Hc Hh Hkv. pose proof Hc as (Hnd & Hl & Hm).
  destruct (coherent_linked c h Hc Hh) as (kv' & Hkv' & Hidx).
  assert (kv' = kv) as -> by congruence.
  split; [|split]; simpl.
  - by apply NoDup_unlink.
  - apply Forall_forall. intros x Hx. apply elem_of_unlink in Hx as [Hx Hne].
    destruct (coherent_linked c x Hc Hx) as (kvx & Hkvx & Hidx').
    exists kvx. split; [done|].
    rewrite lookup_delete_ne; [done|].
    intros Heq. rewrite <-Heq in Hidx'. congruence.
  - intros k item Hk.
    destruct (decide (key kv = k)) as [<-|Hne];
      [by rewrite lookup_delete_eq in Hk|].
    rewrite lookup_delete_ne in Hk by done.
    destruct (Hm k item Hk) as (h' & kv' & -> & Hh' & Hkv'' & Hkey).
    exists h', kv'. repeat split; try done.
    apply elem_of_unlink. split; [done|].
    intros ->. congruence.
Qed.

(** What [removeElement] does to a linked element of a coherent state. *)
Lemma removeElement_linked (c : LRU) (h : handle) (kv : entry) :
  coherent c → h ∈ evictList c → elems c !! h = Some kv →
  ∃ c', removeElement c (Some h) = Ok c' ∧
        evictList c' = unlink h (evictList c) ∧
        cache c' = delete (key kv) (cache c) ∧
        elems c' = elems c ∧
        evicted c' = evicted c ++
          (if onEvicted c then [(key kv, value kv)] else []) ∧
        size c' = size c ∧ ttl c' = ttl c ∧ onEvicted c' = onEvicted c ∧
        coherent c'.
Proof.
  intros Hc Hh Hkv. unfold removeElement, list_Remove. simpl.
  rewrite Hkv. simpl. eexists. split; [reflexivity|].
  unfold call_onEvicted. simpl.
  destruct (onEvicted c) eqn:Ho; simpl; rewrite ?app_nil_r;
    split_and!; try done;
    by apply (coherent_unlink c h kv).
Qed.

(** In a coherent state the entry under a key decides its expiry. *)
Lemma expired_coherent (c : LRU) (now : Z) (k : iface) (h : handle) (kv : entry) :
  cache c !! k = Some (Some h) → elems c !! h = Some kv →
  expired c now k =
    Ok (bool_decide (ttl c ≠ NoLimitTTL ∧ ttl c < now - updatedAt kv)).
Proof.
  intros Hk Hkv. unfold expired, since. case_decide as Httl.
  - by rewrite bool_decide_eq_false_2 by tauto.
  - rewrite Hk. simpl. rewrite Hkv. simpl.
    destruct (Z.leb_spec (now - updatedAt kv) (ttl c)).
    + by rewrite bool_decide_eq_false_2 by lia.
    + by rewrite bool_decide_eq_true_2 by (split; [done|lia]).
Qed.

Lemma Len_set_evictList_perm (c : LRU) (l : list handle) :
  l ≡ₚ evictList c → Len (set_evictList l c) = Len c.
Proof. intros Hp. unfold Len. simpl. by rewrite Hp. Qed.

(** X1.  A hit of [Get] promotes: on a coherent state, for a key whose entry
    is within its TTL, [Get] returns the stored value and moves the element to
    the front of the recency list, the other elements keeping their order;
    the index, the entries and the length are unchanged and the state stays
    coherent. *)
Theorem Get_promotes (c : LRU) (now : Z) (k : iface) (h : handle) (kv : entry) :
  coherent c →
  cache c !! k = Some (Some h) →
  elems c !! h = Some kv →
  value kv ≠ INil →
  ttl c = NoLimitTTL ∨ now - updatedAt kv ≤ ttl c →
  ∃ c', Get c now k = Ok (value kv, true, c') ∧
        evictList c' = h :: unlink h (evictList c) ∧
        evictList c' ≡ₚ evictList c ∧
        Len c' = Len c ∧
        cache c' = cache c ∧ elems c' = elems c ∧ evicted c' = evicted c ∧
        size c' = size c ∧ ttl c' = ttl c ∧
        coherent c'.
Proof.
  intros Hc Hk Hkv Hv Httl.
  destruct (coherent_index c k _ Hc Hk) as (h' & kv' & [= <-] & Hh & _ & _).
  pose proof Hc as (Hnd & _).
  pose proof (unlink_perm _ _ Hnd Hh) as Hperm.
  unfold Get. rewrite Hk, (expired_coherent c now k h kv Hk Hkv).
  rewrite bool_decide_eq_false_2 by (intros [? ?]; destruct Httl; [done|lia]).
  simpl. rewrite decide_True by done. simpl. rewrite Hkv. simpl.
  rewrite decide_False by done.
  eexists. split; [reflexivity|]. simpl.
  split_and!; try done.
  - by apply Len_set_evictList_perm.
  - by apply coherent_MoveToFront.
Qed.

Lemma coherent_two_entries (sz t : Z) : coherent (two_entries sz t).
Proof.
  split; [compute_done|]. split.
  - repeat apply Forall_cons_2; [| |apply Forall_nil_2].
    + by exists (Entry (IInt 2) (IStr "b") 5).
    + by exists (Entry (IInt 1) (IStr "a") 0).
  - apply map_Forall_insert_2; [|apply map_Forall_singleton].
    + exists a1, (Entry (IInt 1) (IStr "a") 0).
      repeat split; [|done..]. compute_done.
    + exists a2, (Entry (IInt 2) (IStr "b") 5).
      repeat split; [|done..]. compute_done.
Qed.

Lemma coherent_three_entries (t : Z) : coherent (three_entries t).
Proof.
  split; [compute_done|]. split.
  - repeat apply Forall_cons_2; [| | |apply Forall_nil_2].
    + by exists (Entry (IInt 3) (IStr "c") 9).
    + by exists (Entry (IInt 2) (IStr "b") 0).
    + by exists (Entry (IInt 1) (IStr "a") 8).
  - repeat apply map_Forall_insert_2; [| | |apply map_Forall_empty].
    + exists a1, (Entry (IInt 1) (IStr "a") 8).
      repeat split; [|done..]. compute_done.
    + exists a2, (Entry (IInt 2) (IStr "b") 0).
      repeat split; [|done..]. compute_done.
    + exists a3, (Entry (IInt 3) (IStr "c") 9).
      repeat split; [|done..]. compute_done.
Qed.

Lemma Get_promotes_witness :
  ∃ c', Get (three_entries 10) 10 (IInt 1) = Ok (IStr "a", true, c') ∧
        evictList c' = [a1; a3; a2] ∧ Len c' = 3.
Proof.
  destruct (Get_promotes (three_entries 10) 10 (IInt 1) a1
              (Entry (IInt 1) (IStr "a") 8))
    as (c' & Hget & Hl & _ & HLen & _).
  - apply coherent_three_entries.
  - reflexivity.
  - reflexivity.
  - done.
  - right. simpl. lia.
  - exists c'. split; [exact Hget|]. split; [exact Hl | exact HLen].
Defined.

Lemma Len_unlink (c : LRU) (h : handle) (c' : LRU) :
  NoDup (evictList c) → h ∈ evictList c →
  evictList c' = unlink h (evictList c) → Len c' = Len c - 1.
Proof.
  intros Hnd Hh Hl. unfold Len. rewrite Hl.
  pose proof (length_unlink _ _ Hnd Hh). lia.
Qed.

(** X2.  [Remove] of a key that a coherent state holds: the element leaves
    the list, the key leaves the index, the callback (when set) is called
    once with the key and its value, the length drops by one and the state
    stays coherent.  Afterwards the key is not found by [Get], [Peek] or
    [Contains], and a second [Remove] returns false and changes nothing. *)
Theorem Remove_present (c : LRU) (now : Z) (k : iface) (h : handle) (kv : entry) :
  coherent c →
  cache c !! k = Some (Some h) →
  elems c !! h = Some kv →
  ∃ c', Remove c k = Ok (true, c') ∧
        evictList c' = unlink h (evictList c) ∧
        Len c' = Len c - 1 ∧
        cache c' = delete k (cache c) ∧
        evicted c' = evicted c ++
          (if onEvicted c then [(k, value kv)] else []) ∧
        coherent c' ∧
        Get c' now k = Ok (INil, false, c') ∧
        Peek c' now k = Ok (INil, false) ∧
        Contains c' now k = Ok false ∧
        Remove c' k = Ok (false, c').
Proof.
  intros Hc Hk Hkv.
  destruct (coherent_index c k _ Hc Hk) as (h' & kv' & [= <-] & Hh & Hkv' & Hkey).
  assert (kv' = kv) as -> by congruence.
  destruct (removeElement_linked c h kv Hc Hh Hkv)
    as (c' & Hrm & Hl & Hm & He & Hev & _ & _ & _ & Hc').
  rewrite Hkey in Hm, Hev.
  assert (cache c' !! k = None) as Hgone by (by rewrite Hm, lookup_delete_eq).
  exists c'. unfold Remove at 1. rewrite Hk, Hrm. simpl.
  split_and!; try done.
  - pose proof Hc as (Hnd & _). by apply (Len_unlink c h).
  - unfold Get. by rewrite Hgone.
  - unfold Peek. by rewrite Hgone.
  - unfold Contains. by rewrite Hgone.
  - unfold Remove. by rewrite Hgone.
Qed.

Lemma Remove_present_witness :
  ∃ c', Remove (two_entries 0 0) (IInt 2) = Ok (true, c') ∧
        evictList c' = [a1] ∧ Len c' = 1 ∧
        evicted c' = [(IInt 2, IStr "b")] ∧
        Get c' 0 (IInt 2) = Ok (INil, false, c').
Proof.
  destruct (Remove_present (two_entries 0 0) 0 (IInt 2) a2
              (Entry (IInt 2) (IStr "b") 5))
    as (c' & Hrm & Hl & HLen & _ & Hev & _ & Hget & _).
  - apply coherent_two_entries.
  - reflexivity.
  - reflexivity.
  - exists c'. split_and!; [exact Hrm | exact Hl | exact HLen | exact Hev | exact Hget].
Defined.

(** X3.  [RemoveOldest] on a coherent state whose list ends with [h] returns
    the key and value of that element, unlinks it, drops its key from the
    index and reports it to the callback; the rest of the list is untouched
    and the state stays coherent. *)
Theorem RemoveOldest_takes_back (c : LRU) (l : list handle) (h : handle) :
  coherent c →
  evictList c = l ++ [h] →
  ∃ kv c', elems c !! h = Some kv ∧
           RemoveOldest c = Ok (key kv, value kv, true, c') ∧
           evictList c' = l ∧
           Len c' = Len c - 1 ∧
           cache c' = delete (key kv) (cache c) ∧
           evicted c' = evicted c ++
             (if onEvicted c then [(key kv, value kv)] else []) ∧
           coherent c'.
Proof.
  intros Hc Hl.
  assert (h ∈ evictList c) as Hh by (rewrite Hl; set_solver).
  destruct (coherent_linked c h Hc Hh) as (kv & Hkv & _).
  destruct (removeElement_linked c h kv Hc Hh Hkv)
    as (c' & Hrm & Hl' & Hm & He & Hev & _ & _ & _ & Hc').
  pose proof Hc as (Hnd & _).
  assert (unlink h (evictList c) = l) as Hul.
  { rewrite Hl. apply unlink_snoc. rewrite Hl in Hnd.
    apply NoDup_app in Hnd as (_ & Hdisj & _).
    intros Hin. apply (Hdisj h Hin). by apply list_elem_of_singleton. }
  exists kv, c'. unfold RemoveOldest, Back. rewrite Hl, last_snoc, Hrm. simpl.
  rewrite He, Hkv. simpl.
  split_and!; try done.
  - by rewrite Hl', Hul.
  - by apply (Len_unlink c h).
Qed.

Lemma RemoveOldest_takes_back_witness :
  ∃ c', RemoveOldest (two_entries 0 0) = Ok (IInt 1, IStr "a", true, c') ∧
        evictList c' = [a2] ∧ Len c' = 1 ∧
        evicted c' = [(IInt 1, IStr "a")].
Proof.
  destruct (RemoveOldest_takes_back (two_entries 0 0) [a2] a1)
    as (kv & c' & Hkv & Hrm & Hl & HLen & _ & Hev & _).
  - apply coherent_two_entries.
  - reflexivity.
  - assert (kv = Entry (IInt 1) (IStr "a") 0) as -> by (by injection Hkv).
    exists c'. split_and!; [exact Hrm | exact Hl | exact HLen | exact Hev].
Defined.

(** Writing a new entry with the same key into a linked element keeps a
    state coherent. *)
Lemma coherent_store (c : LRU) (k : iface) (h : handle) (kv : entry) :
  coherent c → cache c !! k = Some (Some h) → key kv = k →
  coherent (set_elems (<[h:=kv]> (elems c)) c).
Proof.
  intros Hc Hk Hkey. pose proof Hc as (Hnd & Hl & Hm).
  destruct (coherent_index c k _ Hc Hk) as (h' & kv0 & [= <-] & Hh & Hkv0 & Hkey0).
  split; [done|]. split; simpl.
  - apply Forall_forall. intros x Hx.
    destruct (decide (x = h)) as [->|Hne].
    + exists kv. rewrite lookup_insert_eq. split; [done|]. by rewrite Hkey.
    + destruct (coherent_linked c x Hc Hx) as (kvx & Hkvx & Hidx).
      exists kvx. by rewrite lookup_insert_ne.
  - intros k' item Hk'.
    destruct (Hm k' item Hk') as (h' & kv' & -> & Hh' & Hkv' & Hkey').
    destruct (decide (h' = h)) as [->|Hne].
    + exists h, kv. rewrite lookup_insert_eq. split_and!; try done.
      congruence.
    + exists h', kv'. by rewrite lookup_insert_ne.
Qed.

(** X4.  [Set] on a key that a coherent state holds, the cache not being
    over its capacity: the element gets the new value and the time of the
    call, moves to the front, and nothing is evicted; the index and the
    length are unchanged and the state stays coherent.  A [Get] within the
    TTL of the new timestamp returns the new value. *)
Theorem Set_updates_existing (c : LRU) (now : Z) (k v : iface) (h : handle) :
  coherent c →
  k ≠ INil → v ≠ INil →
  cache c !! k = Some (Some h) →
  over_capacity c = false →
  ∃ c', Set_ c now k v = Ok c' ∧
        elems c' = <[h := Entry k v now]> (elems c) ∧
        evictList c' = h :: unlink h (evictList c) ∧
        Len c' = Len c ∧
        cache c' = cache c ∧
        evicted c' = evicted c ∧
        coherent c' ∧
        (∀ now', ttl c = NoLimitTTL ∨ now' - now ≤ ttl c →
           ∃ c'', Get c' now' k = Ok (v, true, c'')).
Proof.
  intros Hc Hk Hv Hin Hcap.
  destruct (coherent_index c k _ Hc Hin) as (h' & kv0 & [= <-] & Hh & Hkv0 & Hkey0).
  pose proof Hc as (Hnd & _).
  pose proof (unlink_perm _ _ Hnd Hh) as Hperm.
  set (c1 := set_evictList (h :: unlink h (evictList c))
               (set_elems (<[h:=Entry k v now]> (elems c)) c)).
  assert (coherent c1) as Hc1.
  { apply (coherent_MoveToFront (set_elems _ c) h); [|done].
    by apply (coherent_store c k). }
  assert (Len c1 = Len c) as HLen
    by (by apply (Len_set_evictList_perm (set_elems _ c))).
  assert (Set_ c now k v = Ok c1) as HS.
  { unfold Set_. rewrite decide_False by tauto. rewrite Hin. simpl.
    rewrite decide_True by done. simpl. fold c1.
    assert (over_capacity c1 = false) as ->; [|done].
    unfold over_capacity in *. by rewrite HLen. }
  exists c1. split_and!; try done.
  intros now' Httl.
  apply (Peek_Get_unexpired c1 now' k h (Entry k v now));
    [done | by apply lookup_insert_eq | done |].
  rewrite (expired_coherent c1 now' k h (Entry k v now))
    by (done || by apply lookup_insert_eq).
  rewrite bool_decide_eq_false_2; [done|].
  simpl. intros [? ?]. destruct Httl; [done|lia].
Qed.

Lemma Set_updates_existing_witness :
  ∃ c', Set_ (two_entries 0 10) 7 (IInt 1) (IStr "z") = Ok c' ∧
        evictList c' = [a1; a2] ∧ Len c' = 2 ∧
        ∃ c'', Get c' 17 (IInt 1) = Ok (IStr "z", true, c'').
Proof.
  destruct (Set_updates_existing (two_entries 0 10) 7 (IInt 1) (IStr "z") a1)
    as (c' & HS & _ & Hl & HLen & _ & _ & _ & HG).
  - apply coherent_two_entries.
  - done.
  - done.
  - reflexivity.
  - reflexivity.
  - exists c'. split_and!; [exact HS | exact Hl | exact HLen |].
    apply HG. right. simpl. lia.
Defined.





(** X6.  On a coherent state whose stored values are not nil, [Contains]
    and [Get] give the same verdict on every key; a miss of [Get] returns nil
    and the state as it was. *)
Theorem Contains_agrees_with_Get (c : LRU) (now : Z) (k : iface) :
  coherent c →
  (∀ h kv, elems c !! h = Some kv → value kv ≠ INil) →
  ∃ b v c', Contains c now k = Ok b ∧ Get c now k = Ok (v, b, c') ∧
            (b = false → v = INil ∧ c' = c).
Proof.
  intros Hc Hval. unfold Contains, Get.
  destruct (cache c !! k) as [item|] eqn:Hk;
    [|by exists false, INil, c].
  destruct (coherent_index c k _ Hc Hk) as (h & kv & -> & Hh & Hkv & Hkey).
  rewrite (expired_coherent c now k h kv Hk Hkv).
  destruct (bool_decide _); simpl; [by exists false, INil, c|].
  rewrite decide_True by done. simpl. rewrite Hkv. simpl.
  rewrite decide_False by (by eapply Hval).
  by eexists true, _, _.
Qed.

Lemma Contains_agrees_with_Get_witness :
  Contains (two_entries 0 10) 11 (IInt 1) = Ok false ∧
  Contains (two_entries 0 10) 11 (IInt 2) = Ok true ∧
  ∃ b v c', Contains (two_entries 0 10) 11 (IInt 2) = Ok b ∧
            Get (two_entries 0 10) 11 (IInt 2) = Ok (v, b, c').
Proof.
  split; [reflexivity|]. split; [reflexivity|].
  destruct (Contains_agrees_with_Get (two_entries 0 10) 11 (IInt 2))
    as (b & v & c' & HC & HG & _).
  - apply coherent_two_entries.
  - intros h kv Hkv.
    destruct (decide (h = a1)) as [->|?]; [by injection Hkv as <-|].
    destruct (decide (h = a2)) as [->|?]; [by injection Hkv as <-|].
    unfold two_entries in Hkv. simpl in Hkv.
    by rewrite lookup_insert_ne, lookup_singleton_ne in Hkv.
  - by exists b, v, c'.
Defined.

(** X7.  Without a TTL [Keys] returns the key of every linked element, from
    the back of the list to the front, so as many keys as [Len] counts. *)
Theorem Keys_without_ttl (c : LRU) (now : Z) :
  list_ok c →
  ttl c = NoLimitTTL →
  Keys c now = Ok (key_of c <$> reverse (evictList c)) ∧
  Z.of_nat (length (key_of c <$> reverse (evictList c))) = Len c.
Proof.
  intros [_ Hel] Httl. split.
  - unfold Keys.
    rewrite <-(app_nil_r (reverse (evictList c))) at 1.
    rewrite Keys_loop_unexpired; [done|].
    apply Forall_reverse. eapply Forall_impl; [exact Hel|].
    intros h [kv Hkv]. exists kv. split; [done|].
    unfold expired. by rewrite decide_True.
  - unfold Len. by rewrite length_fmap, length_reverse.
Qed.

Lemma Keys_without_ttl_witness :
  Keys (three_entries 0) 1000 = Ok [IInt 1; IInt 2; IInt 3].
Proof.
  destruct (Keys_without_ttl (three_entries 0) 1000) as [HK _].
  - split; [compute_done|]. repeat constructor; by eexists.
  - reflexivity.
  - exact HK.
Defined.

Lemma Keys_loop_live (c : LRU) (now : Z) (l : list handle) (keys : list iface) :
  Forall (λ h, ∃ kv, elems c !! h = Some kv ∧
                     cache c !! key kv = Some (Some h)) l →
  ∃ ks, Keys_loop c now l keys = Ok (keys ++ ks) ∧
        Forall (λ k, Contains c now k = Ok true) ks ∧
        (length ks ≤ length l)%nat.
Proof.
  revert keys. induction l as [|h l IH]; intros keys Hl; simpl.
  - exists []. by rewrite app_nil_r.
  - apply Forall_cons in Hl as [(kv & Hkv & Hidx) Hl].
    rewrite Hkv. simpl.
    pose proof (expired_coherent c now (key kv) h kv Hidx Hkv) as Hex.
    rewrite Hex. simpl. destruct (bool_decide _) eqn:Hb.
    + exists []. rewrite app_nil_r. split_and!; [done|apply Forall_nil_2|simpl; lia].
    + destruct (IH (keys ++ [key kv]) Hl) as (ks & Hrun & Hlive & Hlen).
      exists (key kv :: ks). rewrite Hrun, <-(assoc_L (++)).
      split_and!; [done| |simpl; lia].
      apply Forall_cons_2; [|done]. unfold Contains. by rewrite Hidx, Hex.
Qed.

(** X8.  On a coherent state [Keys] returns, and every key it returns is one
    that [Contains] reports as present; it returns at most [Len] keys. *)
Theorem Keys_only_live (c : LRU) (now : Z) :
  coherent c →
  ∃ ks, Keys c now = Ok ks ∧
        Forall (λ k, Contains c now k = Ok true) ks ∧
        Z.of_nat (length ks) ≤ Len c.
Proof.
  intros (_ & Hl & _).
  destruct (Keys_loop_live c now (reverse (evictList c)) [])
    as (ks & Hrun & Hlive & Hlen); [by apply Forall_reverse|].
  exists ks. split_and!; [done|done|].
  rewrite length_reverse in Hlen. unfold Len. lia.
Qed.

Lemma Keys_only_live_witness :
  ∃ ks, Keys (three_entries 10) 11 = Ok ks ∧
        Forall (λ k, Contains (three_entries 10) 11 k = Ok true) ks.
Proof.
  destruct (Keys_only_live (three_entries 10) 11) as (ks & HK & Hlive & _).
  - apply coherent_three_entries.
  - by exists ks.
Defined.

(** ** [Purge] *)

Lemma deref_elems (c c' : LRU) (e : option handle) :
  elems c' = elems c → deref c' e = deref c e.
Proof. intros He. unfold deref. by rewrite He. Qed.

Lemma Purge_loop_spec (l : list (iface * option handle)) (c : LRU) :
  (onEvicted c = true → Forall (λ kv, ∃ e, deref c kv.2 = Ok e) l) →
  ∃ c', foldl Purge_step (Ok c) l = Ok c' ∧
        cache c' = foldl (λ m kv, delete kv.1 m) (cache c) l ∧
        evicted c' = evicted c ++
          (if onEvicted c
           then (λ kv, (kv.1, value_at c kv.2)) <$> l else []) ∧
        evictList c' = evictList c ∧ elems c' = elems c ∧
        size c' = size c ∧ ttl c' = ttl c ∧ onEvicted c' = onEvicted c.
Proof.
  revert c. induction l as [|kv l IH]; intros c Hl.
  - exists c. simpl. split_and!; try done.
    destruct (onEvicted c); by rewrite app_nil_r.
  - set (c1 := set_cache (delete kv.1 (cache c))
                 (call_onEvicted kv.1 (value_at c kv.2) c)).
    assert (Purge_step (Ok c) kv = Ok c1) as Hstep.
    { unfold Purge_step. simpl. subst c1. unfold value_at.
      destruct (onEvicted c) eqn:Ho; [|by unfold call_onEvicted; rewrite Ho].
      apply Forall_cons in Hl as [[e He] _]; [|done].
      rewrite He. simpl. unfold call_onEvicted. by rewrite Ho. }
    assert (elems c1 = elems c ∧ onEvicted c1 = onEvicted c ∧
            evictList c1 = evictList c ∧ size c1 = size c ∧ ttl c1 = ttl c ∧
            cache c1 = delete kv.1 (cache c) ∧
            evicted c1 = evicted c ++
              (if onEvicted c then [(kv.1, value_at c kv.2)] else []))
      as (He1 & Ho1 & Hl1 & Hs1 & Ht1 & Hc1 & Hv1).
    { subst c1. unfold call_onEvicted. simpl.
      destruct (onEvicted c) eqn:Ho; simpl; by rewrite ?app_nil_r, ?Ho. }
    cbn [foldl]. rewrite Hstep.
    destruct (IH c1) as (c' & Hrun & Hc' & Hv' & Hl' & He' & Hs' & Ht' & Ho').
    { rewrite Ho1. intros Ho. apply Hl in Ho.
      apply Forall_cons in Ho as [_ Ho].
      eapply Forall_impl; [exact Ho|]. intros x [e Hx].
      exists e. by rewrite (deref_elems c c1). }
    exists c'. rewrite Hrun, Hc', Hv', Hl', He', Hs', Ht', Ho'.
    rewrite Hc1, Hv1, Hl1, He1, Hs1, Ht1, Ho1.
    split_and!; try done.
    destruct (onEvicted c); [|by rewrite !app_nil_r].
    rewrite <-(assoc_L (++)), fmap_cons. simpl. do 2 f_equal.
    apply list_fmap_ext. intros _ x _. unfold value_at.
    by rewrite (deref_elems c c1).
Qed.

Lemma lookup_foldl_delete (l : list (iface * option handle))
    (m : gmap iface (option handle)) (k : iface) :
  foldl (λ m kv, delete kv.1 m) m l !! k =
    if decide (k ∈ l.*1) then None else m !! k.
Proof.
  revert m. induction l as [|kv l IH]; intros m.
  - by rewrite decide_False by apply not_elem_of_nil.
  - cbn [foldl]. rewrite IH, fmap_cons.
    destruct (decide (k ∈ l.*1)) as [Hin|Hout].
    + by rewrite decide_True by (apply elem_of_cons; by right).
    + destruct (decide (k = kv.1)) as [->|Hne].
      * rewrite decide_True by (apply elem_of_cons; by left).
        apply lookup_delete_eq.
      * rewrite decide_False by (by intros [?|?]%elem_of_cons).
        by apply lookup_delete_ne.
Qed.

Lemma foldl_delete_all (m : gmap iface (option handle)) :
  foldl (λ m kv, delete kv.1 m) m (map_to_list m) = ∅.
Proof.
  apply map_empty. intros k. rewrite lookup_foldl_delete.
  case_decide as Hk; [done|].
  apply eq_None_not_Some. intros [x Hx]. apply Hk.
  apply list_elem_of_fmap. exists (k, x). split; [done|].
  by apply elem_of_map_to_list.
Qed.

Lemma Purge_spec (c : LRU) :
  (onEvicted c = true →
     map_Forall (λ _ item, ∃ e, deref c item = Ok e) (cache c)) →
  ∃ c', Purge c = Ok c' ∧ cache c' = ∅ ∧ evictList c' = [] ∧
        evicted c' = evicted c ++
          (if onEvicted c
           then (λ kv, (kv.1, value_at c kv.2)) <$> map_to_list (cache c)
           else []) ∧
        elems c' = elems c ∧ size c' = size c ∧ ttl c' = ttl c.
Proof.
  intros Hm.
  destruct (Purge_loop_spec (map_to_list (cache c)) c)
    as (c1 & Hrun & Hc1 & Hv1 & _ & He1 & Hs1 & Ht1 & _).
  { intros Ho. apply Forall_forall. intros [k item] Hin.
    apply elem_of_map_to_list in Hin. exact (Hm Ho k item Hin). }
  rewrite foldl_delete_all in Hc1.
  exists (set_evictList [] c1). unfold Purge. rewrite Hrun. simpl.
  by split_and!.
Qed.

(** X9.  [Purge] on a state without callback, or whose index entries all
    point at elements: it returns, the index and the recency list are empty
    afterwards, and the callback has been called once for every index entry,
    with the key and the value of its element, in some order. *)
Theorem Purge_empties (c : LRU) :
  (onEvicted c = true →
     map_Forall (λ _ item, ∃ e, deref c item = Ok e) (cache c)) →
  ∃ c' calls, Purge c = Ok c' ∧
        cache c' = ∅ ∧ evictList c' = [] ∧ Len c' = 0 ∧
        evicted c' = evicted c ++ calls ∧
        calls ≡ₚ (if onEvicted c
                  then (λ kv, (kv.1, value_at c kv.2)) <$> map_to_list (cache c)
                  else []) ∧
        (∀ now k, Contains c' now k = Ok false).
Proof.
  intros Hm. destruct (Purge_spec c Hm) as (c' & HP & Hc & Hl & Hv & _).
  exists c', (if onEvicted c
              then (λ kv, (kv.1, value_at c kv.2)) <$> map_to_list (cache c)
              else []).
  split_and!; try done.
  - unfold Len. by rewrite Hl.
  - intros now k. unfold Contains. by rewrite Hc, lookup_empty.
Qed.

Lemma Purge_empties_witness :
  ∃ c' calls, Purge (two_entries 0 0) = Ok c' ∧ Len c' = 0 ∧
              evicted c' = calls ∧
              calls ≡ₚ [(IInt 1, IStr "a"); (IInt 2, IStr "b")].
Proof.
  destruct (Purge_empties (two_entries 0 0))
    as (c' & calls & HP & _ & _ & HLen & Hv & Hperm & _).
  - intros _. apply map_Forall_insert_2; [|apply map_Forall_singleton];
      by eexists.
  - exists c', calls. split_and!; [exact HP | exact HLen | exact Hv |].
    rewrite Hperm. vm_compute. apply perm_swap || reflexivity.
Defined.

(** ** [Resize] again, and what coherent states guarantee *)

(** X10.  [Resize] to a capacity [sz >= 0] cuts the list to at most [sz]
    elements and keeps it well formed; a second [Resize] to the same capacity
    evicts nothing, returns 0 and changes nothing. *)
Theorem Resize_is_idempotent (c : LRU) (sz : Z) :
  list_ok c →
  0 ≤ sz ≤ int_max →
  Len c ≤ int_max →
  ∃ d c', Resize c sz = Ok (d, c') ∧
          d = Z.max 0 (Len c - sz) ∧
          Len c' = Z.min (Len c) sz ∧
          list_ok c' ∧
          Resize c' sz = Ok (0, c').
Proof.
  intros Hok Hsz HLen. pose proof Hok as [Hnd Hel].
  pose proof (Len_nonneg c) as Hnn.
  assert (wrap_int (Len c - sz) = Len c - sz) as Hw
    by (apply wrap_int_small; solve_in_int).
  set (d := Z.max 0 (Len c - sz)).
  destruct (removeOldest_times_spec (Z.to_nat d) c Hok)
    as (c1 & Hrun & Hl & _ & _ & _ & He & _).
  assert (Len (set_size sz c1) = Z.min (Len c) sz) as HLen1.
  { unfold Len in *. simpl. rewrite Hl, length_take. lia. }
  exists d, (set_size sz c1). split_and!; try done.
  - unfold Resize. rewrite clamp_max, Hw. fold d. by rewrite Hrun.
  - split; simpl; rewrite Hl, ?He.
    + eapply sublist_NoDup; [exact Hnd | apply sublist_take].
    + by apply Forall_take.
  - unfold Resize. rewrite clamp_max, HLen1.
    rewrite wrap_int_small by solve_in_int.
    by rewrite Z.max_l by lia.
Qed.

Lemma Resize_is_idempotent_witness :
  ∃ c', Resize (three_entries 0) 2 = Ok (1, c') ∧ Len c' = 2 ∧
        Resize c' 2 = Ok (0, c').
Proof.
  destruct (Resize_is_idempotent (three_entries 0) 2)
    as (d & c' & HR & -> & HLen & _ & HR').
  - split; [compute_done|]. repeat constructor; by eexists.
  - solve_in_int.
  - by vm_compute.
  - exists c'. split_and!; [exact HR | exact HLen | exact HR'].
Defined.

Lemma removeOldest_coherent (c : LRU) :
  coherent c → ∃ c', removeOldest c = Ok c' ∧ coherent c'.
Proof.
  intros Hc. unfold removeOldest, Back.
  destruct (last (evictList c)) as [h|] eqn:Hlast; [|by exists c].
  apply last_Some_elem_of in Hlast.
  destruct (coherent_linked c h Hc Hlast) as (kv & Hkv & _).
  destruct (removeElement_linked c h kv Hc Hlast Hkv) as (c' & Hrm & Hrest).
  exists c'. split; [done|]. apply Hrest.
Qed.

Lemma removeOldest_times_coherent (n : nat) (c : LRU) :
  coherent c → ∃ c', removeOldest_times n c = Ok c' ∧ coherent c'.
Proof.
  revert c. induction n as [|n IH]; intros c Hc; simpl; [by exists c|].
  destruct (removeOldest_coherent c Hc) as (c1 & Hrm & Hc1).
  rewrite Hrm. simpl. by apply IH.
Qed.

Lemma coherent_empty (c : LRU) :
  evictList c = [] → cache c = ∅ → coherent c.
Proof.
  intros Hl Hm. unfold coherent. rewrite Hl, Hm.
  split_and!; [constructor | constructor | apply map_Forall_empty].
Qed.

Lemma coherent_deref (c : LRU) (k : iface) (item : option handle) :
  coherent c → cache c !! k = Some item → ∃ e, deref c item = Ok e.
Proof.
  intros Hc Hk.
  destruct (coherent_index c k item Hc Hk) as (h & kv & -> & _ & Hkv & _).
  exists kv. simpl. by rewrite Hkv.
Qed.

(** X11.  On a coherent state no operation panics, and every operation hands
    back a coherent state, with one exception: [Set] of a non-nil key that is
    not in the index with a non-nil value returns a state that binds the key
    to the nil element, which is not coherent. *)
Theorem coherent_operations (c : LRU) :
  coherent c →
  (∀ now k, ∃ v ok c', Get c now k = Ok (v, ok, c') ∧ coherent c') ∧
  (∀ now k, ∃ v ok, Peek c now k = Ok (v, ok)) ∧
  (∀ now k, ∃ b, Contains c now k = Ok b) ∧
  (∀ now, ∃ ks, Keys c now = Ok ks) ∧
  (∀ k, ∃ ok c', Remove c k = Ok (ok, c') ∧ coherent c') ∧
  (∃ k v ok c', RemoveOldest c = Ok (k, v, ok, c') ∧ coherent c') ∧
  (∃ c', Purge c = Ok c' ∧ coherent c') ∧
  (∀ sz, ∃ n c', Resize c sz = Ok (n, c') ∧ coherent c') ∧
  (∀ now k v, ∃ c', Set_ c now k v = Ok c' ∧
     (k = INil ∨ v = INil ∨ is_Some (cache c !! k) → coherent c') ∧
     (k ≠ INil → v ≠ INil → cache c !! k = None →
        cache c' !! k = Some None ∧ ¬ coherent c')).
Proof.
  intros Hc. split_and!.
  - intros now k. unfold Get.
    destruct (cache c !! k) as [item|] eqn:Hk; [|by exists INil, false, c].
    destruct (coherent_index c k _ Hc Hk) as (h & kv & -> & Hh & Hkv & Hkey).
    rewrite (expired_coherent c now k h kv Hk Hkv).
    destruct (bool_decide _); simpl; [by exists INil, false, c|].
    rewrite decide_True by done. simpl. rewrite Hkv. simpl.
    case_decide; eexists _, _, _; (split; [reflexivity|]);
      by apply coherent_MoveToFront.
  - intros now k. unfold Peek.
    destruct (cache c !! k) as [item|] eqn:Hk; [|by eexists _, _].
    destruct (coherent_index c k _ Hc Hk) as (h & kv & -> & Hh & Hkv & Hkey).
    rewrite (expired_coherent c now k h kv Hk Hkv).
    destruct (bool_decide _); simpl; [by eexists _, _|].
    rewrite Hkv. simpl. by eexists _, _.
  - intros now k. unfold Contains.
    destruct (cache c !! k) as [item|] eqn:Hk; [|by eexists].
    destruct (coherent_index c k _ Hc Hk) as (h & kv & -> & Hh & Hkv & Hkey).
    rewrite (expired_coherent c now k h kv Hk Hkv). by eexists.
  - intros now. destruct Hc as (_ & Hl & _).
    destruct (Keys_loop_live c now (reverse (evictList c)) [])
      as (ks & Hrun & _); [by apply Forall_reverse|].
    by exists ks.
  - intros k. unfold Remove.
    destruct (cache c !! k) as [item|] eqn:Hk; [|by exists false, c].
    destruct (coherent_index c k _ Hc Hk) as (h & kv & -> & Hh & Hkv & Hkey).
    destruct (removeElement_linked c h kv Hc Hh Hkv) as (c' & Hrm & Hrest).
    rewrite Hrm. simpl. exists true, c'. split; [done|]. apply Hrest.
  - unfold RemoveOldest, Back.
    destruct (last (evictList c)) as [h|] eqn:Hlast;
      [|by exists INil, INil, false, c].
    apply last_Some_elem_of in Hlast.
    destruct (coherent_linked c h Hc Hlast) as (kv & Hkv & _).
    destruct (removeElement_linked c h kv Hc Hlast Hkv)
      as (c' & Hrm & _ & _ & He & Hrest).
    rewrite Hrm. simpl. rewrite He, Hkv. simpl.
    exists (key kv), (value kv), true, c'. split; [done|]. apply Hrest.
  - destruct (Purge_spec c) as (c' & HP & Hm & Hl & _).
    { intros _ k item Hk. by apply (coherent_deref c k). }
    exists c'. split; [done|]. by apply coherent_empty.
  - intros sz. unfold Resize.
    destruct (removeOldest_times_coherent
                (Z.to_nat (if wrap_int (Len c - sz) <? 0 then 0
                           else wrap_int (Len c - sz))) c Hc)
      as (c' & Hrun & Hc').
    rewrite Hrun. simpl. eexists _, _. split; [reflexivity|].
    by apply (coherent_fields c').
  - intros now k v. unfold Set_.
    case_decide as Hnil; [exists c; split_and!; [done|done|tauto]|].
    destruct (cache c !! k) as [item|] eqn:Hk.
    + destruct (coherent_index c k _ Hc Hk) as (h & kv & -> & Hh & Hkv & Hkey).
      simpl. rewrite decide_True by done. simpl.
      set (c1 := set_evictList _ _).
      assert (coherent c1) as Hc1.
      { apply (coherent_MoveToFront (set_elems _ c) h); [|done].
        by apply (coherent_store c k). }
      destruct (over_capacity c1); [|by exists c1].
      destruct (removeOldest_coherent c1 Hc1) as (c2 & Hrm & Hc2).
      exists c2. by rewrite Hrm.
    + simpl. set (c1 := set_cache _ c).
      assert (∀ c', cache c' !! k = Some None → ¬ coherent c') as Hbad.
      { intros c' Hk' Hc'.
        by destruct (coherent_index c' k _ Hc' Hk') as (? & ? & ? & _). }
      assert (∃ c2, removeOldest c1 = Ok c2 ∧ cache c2 !! k = Some None)
        as (c2 & Hrm & Hk2).
      { unfold removeOldest, Back. simpl.
        destruct (last (evictList c)) as [h|] eqn:Hlast.
        - apply last_Some_elem_of in Hlast.
          destruct (coherent_linked c h Hc Hlast) as (kv & Hkv & Hidx).
          unfold removeElement. simpl. rewrite Hkv. simpl.
          eexists. split; [reflexivity|].
          unfold call_onEvicted. simpl.
          assert (key kv ≠ k) by (intros <-; congruence).
          destruct (onEvicted c); simpl;
            by rewrite lookup_delete_ne, lookup_insert_eq.
        - exists c1. split; [done|]. simpl. apply lookup_insert_eq. }
      destruct (over_capacity c1); [exists c2 | exists c1];
        (split_and!; [done | intros [?|[?|[? ?]]]; tauto || discriminate |]);
        intros _ _ _.
      * split; [done | by apply Hbad].
      * split; [apply lookup_insert_eq | apply Hbad, lookup_insert_eq].
Qed.

Lemma coherent_operations_witness :
  (∃ v ok c', Get (two_entries 0 10) 7 (IInt 2) = Ok (v, ok, c') ∧ coherent c') ∧
  (∃ c', Purge (two_entries 0 10) = Ok c' ∧ coherent c').
Proof.
  destruct (coherent_operations (two_entries 0 10)) as (HG & _ & _ & _ & _ & _ & HP & _).
  - apply coherent_two_entries.
  - split; [apply HG | exact HP].
Defined.

(** ** What no operation writes *)

Lemma same_config_refl (c : LRU) : same_config c c.
Proof. by split_and!. Qed.

Lemma same_config_trans (c1 c2 c3 : LRU) :
  same_config c1 c2 → same_config c2 c3 → same_config c1 c3.
Proof. intros (? & ? & ?) (? & ? & ?). split_and!; congruence. Qed.

Lemma same_config_removeElement (c : LRU) (e : option handle) (c' : LRU) :
  removeElement c e = Ok c' → same_config c c'.
Proof.
  unfold removeElement, list_Remove. intros H.
  destruct e as [h|]; [|discriminate]. simpl in H.
  destruct (elems c !! h) as [kv|]; [|discriminate]. simpl in H.
  simplify_eq. unfold call_onEvicted. simpl.
  by destruct (onEvicted c) eqn:Ho; split_and!.
Qed.

Lemma same_config_removeOldest (c c' : LRU) :
  removeOldest c = Ok c' → same_config c c'.
Proof.
  unfold removeOldest. destruct (Back c) as [h|].
  - apply same_config_removeElement.
  - intros [= <-]. apply same_config_refl.
Qed.

Lemma same_config_removeOldest_times (n : nat) (c c' : LRU) :
  removeOldest_times n c = Ok c' → same_config c c'.
Proof.
  revert c. induction n as [|n IH]; intros c H; simpl in H.
  - simplify_eq. apply same_config_refl.
  - apply bind_Ok in H as (c1 & H1 & H2).
    eapply same_config_trans; [by apply same_config_removeOldest | by apply IH].
Qed.

Lemma same_config_MoveToFront (c : LRU) (e : option handle) (c' : LRU) :
  MoveToFront c e = Ok c' → same_config c c'.
Proof.
  unfold MoveToFront. destruct e as [h|]; [|discriminate].
  case_decide; intros [= <-]; by split_and!.
Qed.

Lemma same_config_Purge_loop (l : list (iface * option handle))
    (r : result LRU) (c0 c' : LRU) :
  (∀ c, r = Ok c → same_config c0 c) →
  foldl Purge_step r l = Ok c' → same_config c0 c'.
Proof.
  revert r. induction l as [|kv l IH]; intros r Hr H; simpl in H;
    [by apply Hr|].
  apply IH in H; [done|]. intros c1 H1.
  destruct r as [c|]; [|discriminate]. specialize (Hr c eq_refl).
  unfold Purge_step in H1. simpl in H1.
  apply bind_Ok in H1 as (c2 & H2 & H3). simplify_eq.
  eapply same_config_trans; [exact Hr|].
  destruct (onEvicted c) eqn:Ho; [|by simplify_eq; split_and!].
  apply bind_Ok in H2 as (e & _ & H2). simplify_eq.
  unfold call_onEvicted. rewrite Ho. by split_and!.
Qed.

Lemma same_config_Set (c : LRU) (now : Z) (k v : iface) (c' : LRU) :
  Set_ c now k v = Ok c' → same_config c c'.
Proof.
  intros H. unfold Set_ in H.
  case_decide; [simplify_eq; apply same_config_refl|].
  apply bind_Ok in H as (c1 & H1 & H2).
  assert (same_config c c1) as Hc1.
  { destruct (cache c !! k) as [item|]; [|by simplify_eq; split_and!].
    apply bind_Ok in H1 as (c0 & Hst & Hmv).
    destruct item as [h|]; [|discriminate]. simpl in Hst. simplify_eq.
    apply same_config_MoveToFront in Hmv. by destruct Hmv as (? & ? & ?). }
  eapply same_config_trans; [exact Hc1|].
  destruct (over_capacity c1); [by apply same_config_removeOldest|].
  simplify_eq. apply same_config_refl.
Qed.

Lemma same_config_Get (c : LRU) (now : Z) (k v : iface) (ok : bool) (c' : LRU) :
  Get c now k = Ok (v, ok, c') → same_config c c'.
Proof.
  intros H. unfold Get in H.
  destruct (cache c !! k) as [item|]; [|simplify_eq; apply same_config_refl].
  apply bind_Ok in H as (ex & _ & H).
  destruct ex; [simplify_eq; apply same_config_refl|].
  apply bind_Ok in H as (c1 & Hmv & H).
  apply bind_Ok in H as (kv & _ & H).
  apply same_config_MoveToFront in Hmv.
  by case_decide; simplify_eq.
Qed.

Lemma same_config_Remove (c : LRU) (k : iface) (ok : bool) (c' : LRU) :
  Remove c k = Ok (ok, c') → same_config c c'.
Proof.
  intros H. unfold Remove in H.
  destruct (cache c !! k) as [item|]; [|simplify_eq; apply same_config_refl].
  apply bind_Ok in H as (c1 & Hrm & H). simplify_eq.
  by apply same_config_removeElement in Hrm.
Qed.

Lemma same_config_RemoveOldest (c : LRU) (k v : iface) (ok : bool) (c' : LRU) :
  RemoveOldest c = Ok (k, v, ok, c') → same_config c c'.
Proof.
  intros H. unfold RemoveOldest in H.
  destruct (Back c) as [h|]; [|simplify_eq; apply same_config_refl].
  apply bind_Ok in H as (c1 & Hrm & H).
  apply bind_Ok in H as (kv & _ & H). simplify_eq.
  by apply same_config_removeElement in Hrm.
Qed.

Lemma same_config_Purge (c c' : LRU) : Purge c = Ok c' → same_config c c'.
Proof.
  intros H. unfold Purge in H.
  apply bind_Ok in H as (c1 & Hloop & H). simplify_eq.
  apply same_config_Purge_loop with (c0 := c) in Hloop;
    [|intros ? [= <-]; apply same_config_refl].
  by destruct Hloop as (? & ? & ?).
Qed.

Lemma config_Resize (c : LRU) (sz n : Z) (c' : LRU) :
  Resize c sz = Ok (n, c') →
  ttl c' = ttl c ∧ onEvicted c' = onEvicted c ∧ size c' = sz.
Proof.
  intros H. unfold Resize in H.
  apply bind_Ok in H as (c1 & Hrun & H). simplify_eq.
  apply same_config_removeOldest_times in Hrun.
  by destruct Hrun as (? & ? & ?).
Qed.

(** X12.  The TTL and the callback are fixed when the cache is built: no
    operation that returns has changed them, and only [Resize] changes the
    capacity, to the number it is given. *)
Theorem configuration_is_fixed (c : LRU) :
  (∀ now k v c', Set_ c now k v = Ok c' → same_config c c') ∧
  (∀ now k v ok c', Get c now k = Ok (v, ok, c') → same_config c c') ∧
  (∀ k ok c', Remove c k = Ok (ok, c') → same_config c c') ∧
  (∀ k v ok c', RemoveOldest c = Ok (k, v, ok, c') → same_config c c') ∧
  (∀ c', Purge c = Ok c' → same_config c c') ∧
  (∀ sz n c', Resize c sz = Ok (n, c') →
     ttl c' = ttl c ∧ onEvicted c' = onEvicted c ∧ size c' = sz).
Proof.
  split_and!.
  - intros now k v c'. apply same_config_Set.
  - intros now k v ok c'. apply same_config_Get.
  - intros k ok c'. apply same_config_Remove.
  - intros k v ok c'. apply same_config_RemoveOldest.
  - intros c'. apply same_config_Purge.
  - intros sz n c'. apply config_Resize.
Qed.

(** ** Reachable states, continued *)

Lemma reachable_ttl (c : LRU) : reachable c → 0 ≤ ttl c.
Proof.
  induction 1 as [sz t cb _ _ | c now k v c' _ IH H | c now k v ok c' _ IH H
                 | c k ok c' _ IH H | c k v ok c' _ IH H | c c' _ IH H
                 | c sz n c' _ IH _ H].
  - unfold NewLRU, NoLimitTTL. simpl. destruct (Z.leb_spec t 0); lia.
  - apply same_config_Set in H. destruct H as (-> & _). done.
  - apply same_config_Get in H. destruct H as (-> & _). done.
  - apply same_config_Remove in H. destruct H as (-> & _). done.
  - apply same_config_RemoveOldest in H. destruct H as (-> & _). done.
  - apply same_config_Purge in H. destruct H as (-> & _). done.
  - apply config_Resize in H. destruct H as (-> & _). done.
Qed.

(** A state that [Set] has produced, to instantiate the facts on reachable
    states. *)
Lemma reachable_after_Set :
  reachable (set_cache (<[IInt 1:=None]> ∅) (NewLRU 2 0 true)).
Proof.
  apply (reach_Set (NewLRU 2 0 true) 0 (IInt 1) (IStr "a")).
  - constructor; solve_in_int.
  - reflexivity.
Qed.

(** X13.  The shape of every state the public operations can produce: the
    recency list is empty, no list element exists, the callback has never been
    called, every key of the index is bound to the nil element, and the TTL
    is not negative. *)
Theorem reachable_shape (c : LRU) :
  reachable c →
  evictList c = [] ∧ Len c = 0 ∧ elems c = ∅ ∧ evicted c = [] ∧
  (∀ k item, cache c !! k = Some item → item = None) ∧
  0 ≤ ttl c.
Proof.
  intros Hr. pose proof (reachable_bare c Hr) as Hb.
  destruct Hb as (Hl & He & Hv & Hm).
  split_and!; try done.
  - unfold Len. by rewrite Hl.
  - by apply reachable_ttl.
Qed.

Lemma reachable_shape_witness :
  Len (set_cache (<[IInt 1:=None]> ∅) (NewLRU 2 0 true)) = 0 ∧
  evicted (set_cache (<[IInt 1:=None]> ∅) (NewLRU 2 0 true)) = [].
Proof.
  destruct (reachable_shape (set_cache (<[IInt 1:=None]> ∅) (NewLRU 2 0 true)))
    as (_ & HLen & _ & Hv & _).
  - apply reachable_after_Set.
  - split; [exact HLen | exact Hv].
Defined.



(** X15.  [Set] on a reachable state, with a non-nil key and value.  While
    the key is in the index, [Set] and [Get] of it panic, and without a TTL
    [Contains] reports it as present.  When the key is not in the index, [Set]
    returns: it binds the key to the nil element and changes nothing else; the
    state it leaves is reachable and has the key in its index, so that there
    [Set] and [Get] of the key panic. *)
Theorem reachable_Set_once (c : LRU) (now now' : Z) (k v : iface) :
  reachable c →
  k ≠ INil → v ≠ INil →
  (is_Some (cache c !! k) →
     Set_ c now k v = Panic ∧
     Get c now' k = Panic ∧
     (ttl c = NoLimitTTL → Contains c now' k = Ok true)) ∧
  (cache c !! k = None →
     ∃ c', Set_ c now k v = Ok c' ∧
           c' = set_cache (<[k:=None]> (cache c)) c ∧
           reachable c' ∧
           is_Some (cache c' !! k) ∧
           Set_ c' now' k v = Panic ∧
           Get c' now' k = Panic ∧
           (ttl c = NoLimitTTL → Contains c' now' k = Ok true)).
Proof.
  intros Hr Hk Hv. pose proof (reachable_bare c Hr) as Hb. split.
  - intros Hin. split_and!.
    + by apply Set_known_key_panics.
    + by apply Get_known_key_panics.
    + intros Httl. rewrite (Contains_known_key c Hb now' k Hin).
      by rewrite decide_True.
  - intros Hnew. pose proof (Set_new_key c Hb now k v Hk Hv Hnew) as HS.
    eexists. split; [exact HS|]. split; [done|].
    assert (reachable (set_cache (<[k:=None]> (cache c)) c)) as Hr'
      by (by eapply reach_Set).
    pose proof (reachable_bare _ Hr') as Hb'.
    assert (is_Some (cache (set_cache (<[k:=None]> (cache c)) c) !! k)) as Hin
      by (simpl; rewrite lookup_insert_eq; by eexists).
    split_and!; try done.
    + by apply Set_known_key_panics.
    + by apply Get_known_key_panics.
    + intros Httl. rewrite (Contains_known_key _ Hb' now' k Hin).
      simpl. by rewrite decide_True.
Qed.

Lemma reachable_Set_once_witness :
  (Set_ (set_cache (<[IInt 1:=None]> ∅) (NewLRU 2 0 true)) 1 (IInt 1) (IStr "b")
     = Panic ∧
   Get (set_cache (<[IInt 1:=None]> ∅) (NewLRU 2 0 true)) 2 (IInt 1) = Panic) ∧
  ∃ c', Set_ (set_cache (<[IInt 1:=None]> ∅) (NewLRU 2 0 true)) 1
          (IInt 2) (IStr "b") = Ok c' ∧
        Contains c' 2 (IInt 2) = Ok true.
Proof.
  split.
  - destruct (reachable_Set_once
                (set_cache (<[IInt 1:=None]> ∅) (NewLRU 2 0 true)) 1 2
                (IInt 1) (IStr "b")) as [Hin _];
      [apply reachable_after_Set | done | done |].
    destruct Hin as (HS & HG & _); [by eexists|].
    split; [exact HS | exact HG].
  - destruct (reachable_Set_once
                (set_cache (<[IInt 1:=None]> ∅) (NewLRU 2 0 true)) 1 2
                (IInt 2) (IStr "b")) as [_ Hnew];
      [apply reachable_after_Set | done | done |].
    destruct Hnew as (c' & HS & _ & _ & _ & _ & _ & HC); [reflexivity|].
    exists c'. split; [exact HS | by apply HC].
Defined.

(** ** The least recently used element *)

(** X16.  A key that [Get] has just found is not the next one to go: on a
    coherent state with at least two elements, after a hit on [k] the next
    [RemoveOldest] removes another key and [k] is still bound to its
    element. *)
Theorem Get_protects_from_eviction
    (c : LRU) (now : Z) (k : iface) (h : handle) (kv : entry) :
  coherent c →
  cache c !! k = Some (Some h) →
  elems c !! h = Some kv →
  value kv ≠ INil →
  ttl c = NoLimitTTL ∨ now - updatedAt kv ≤ ttl c →
  2 ≤ Len c →
  ∃ c' k' v' c'', Get c now k = Ok (value kv, true, c') ∧
                  RemoveOldest c' = Ok (k', v', true, c'') ∧
                  k' ≠ k ∧
                  cache c'' !! k = Some (Some h) ∧
                  Len c'' = Len c - 1.
Proof.
  intros Hc Hk Hkv Hv Httl HLen.
  destruct (coherent_index c k _ Hc Hk) as (h' & kv' & [= <-] & Hh & _ & _).
  pose proof Hc as (Hnd & _).
  pose proof (unlink_perm _ _ Hnd Hh) as Hperm.
  set (c' := set_evictList (h :: unlink h (evictList c)) c).
  assert (coherent c') as Hc' by (by apply coherent_MoveToFront).
  assert (Get c now k = Ok (value kv, true, c')) as HG.
  { unfold Get. rewrite Hk, (expired_coherent c now k h kv Hk Hkv).
    rewrite bool_decide_eq_false_2 by (intros [? ?]; destruct Httl; [done|lia]).
    simpl. rewrite decide_True by done. simpl. rewrite Hkv. simpl.
    by rewrite decide_False by done. }
  assert (∃ x, last (evictList c') = Some x ∧ x ≠ h ∧ x ∈ evictList c')
    as (x & Hlast & Hxh & Hx).
  { simpl. destruct (unlink h (evictList c)) as [|y l'] eqn:Hul.
    - apply Permutation_length in Hperm. unfold Len in HLen.
      simpl in Hperm. lia.
    - destruct (last (y :: l')) as [x|] eqn:Hlast;
        [|by apply last_None in Hlast].
      exists x. rewrite last_cons, Hlast.
      pose proof (last_Some_elem_of _ _ Hlast) as Hin.
      split_and!; [done | | by right].
      rewrite <-Hul in Hin. by apply elem_of_unlink in Hin as [_ ?]. }
  destruct (coherent_linked c' x Hc' Hx) as (kvx & Hkvx & Hidx).
  destruct (removeElement_linked c' x kvx Hc' Hx Hkvx)
    as (c'' & Hrm & Hl'' & Hm'' & He'' & _).
  assert (key kvx ≠ k) as Hne.
  { intros Heq. rewrite Heq in Hidx. simpl in Hidx. congruence. }
  exists c', (key kvx), (value kvx), c''. split_and!; try done.
  - unfold RemoveOldest, Back. rewrite Hlast, Hrm. simpl.
    by rewrite He'', Hkvx.
  - by rewrite Hm'', lookup_delete_ne.
  - destruct Hc' as (Hnd' & _).
    rewrite (Len_unlink c' x c'' Hnd' Hx Hl'').
    subst c'. by rewrite (Len_set_evictList_perm c).
Qed.

Lemma Get_protects_from_eviction_witness :
  ∃ c' k' v' c'', Get (two_entries 0 0) 7 (IInt 1) = Ok (IStr "a", true, c') ∧
                  RemoveOldest c' = Ok (k', v', true, c'') ∧
                  k' ≠ IInt 1 ∧
                  cache c'' !! IInt 1 = Some (Some a1).
Proof.
  destruct (Get_protects_from_eviction (two_entries 0 0) 7 (IInt 1) a1
              (Entry (IInt 1) (IStr "a") 0))
    as (c' & k' & v' & c'' & HG & HR & Hne & Hk & _).
  - apply coherent_two_entries.
  - reflexivity.
  - reflexivity.
  - done.
  - by left.
  - by vm_compute.
  - exists c', k', v', c''.
    split_and!; [exact HG | exact HR | exact Hne | exact Hk].
Defined.

(** ** Stored values *)

Lemma same_elems_removeElement (c : LRU) (e : option handle) (c' : LRU) :
  removeElement c e = Ok c' → elems c' = elems c.
Proof.
  unfold removeElement, list_Remove. intros H.
  destruct e as [h|]; [|discriminate]. simpl in H.
  destruct (elems c !! h) as [kv|]; [|discriminate]. simpl in H.
  simplify_eq. unfold call_onEvicted. simpl. by destruct (onEvicted c).
Qed.

Lemma same_elems_removeOldest (c c' : LRU) :
  removeOldest c = Ok c' → elems c' = elems c.
Proof.
  unfold removeOldest. destruct (Back c) as [h|].
  - apply same_elems_removeElement.
  - by intros [= <-].
Qed.

Lemma same_elems_removeOldest_times (n : nat) (c c' : LRU) :
  removeOldest_times n c = Ok c' → elems c' = elems c.
Proof.
  revert c. induction n as [|n IH]; intros c H; simpl in H; [by simplify_eq|].
  apply bind_Ok in H as (c1 & H1 & H2).
  by rewrite (IH c1 H2), (same_elems_removeOldest c c1 H1).
Qed.

Lemma same_elems_MoveToFront (c : LRU) (e : option handle) (c' : LRU) :
  MoveToFront c e = Ok c' → elems c' = elems c.
Proof.
  unfold MoveToFront. destruct e as [h|]; [|discriminate].
  by case_decide; intros [= <-].
Qed.

Lemma same_elems_Purge_loop (l : list (iface * option handle))
    (r : result LRU) (c0 c' : LRU) :
  (∀ c, r = Ok c → elems c = elems c0) →
  foldl Purge_step r l = Ok c' → elems c' = elems c0.
Proof.
  revert r. induction l as [|kv l IH]; intros r Hr H; simpl in H;
    [by apply Hr|].
  apply IH in H; [done|]. intros c1 H1.
  destruct r as [c|]; [|discriminate]. specialize (Hr c eq_refl).
  unfold Purge_step in H1. simpl in H1.
  apply bind_Ok in H1 as (c2 & H2 & H3). simplify_eq. simpl.
  destruct (onEvicted c) eqn:Ho; [|by simplify_eq].
  apply bind_Ok in H2 as (e & _ & H2). simplify_eq.
  unfold call_onEvicted. by rewrite Ho.
Qed.

(** X17.  No nil is ever stored.  [Set] is the only operation that writes an
    entry, and it writes the key and value it has checked: starting from a
    state whose entries have non-nil keys and values, every operation that
    returns leaves such a state, and all but [Set] leave the entries as they
    were.  On such a state a [Get] that finds the key in the index and
    unexpired returns found: the nil test on the stored value never fires. *)
Theorem stored_values_never_nil (c : LRU) :
  entries_ok c →
  (∀ now k v c', Set_ c now k v = Ok c' → entries_ok c') ∧
  (∀ now k v ok c', Get c now k = Ok (v, ok, c') → elems c' = elems c) ∧
  (∀ k ok c', Remove c k = Ok (ok, c') → elems c' = elems c) ∧
  (∀ k v ok c', RemoveOldest c = Ok (k, v, ok, c') → elems c' = elems c) ∧
  (∀ c', Purge c = Ok c' → elems c' = elems c) ∧
  (∀ sz n c', Resize c sz = Ok (n, c') → elems c' = elems c) ∧
  (∀ now k v c', Get c now k = Ok (v, false, c') →
     cache c !! k = None ∨ expired c now k = Ok true).
Proof.
  intros Hok. split_and!.
  - intros now k v c' H. unfold Set_ in H.
    case_decide as Hnil; [by simplify_eq|].
    apply bind_Ok in H as (c1 & H1 & H2).
    assert (entries_ok c1) as Hok1.
    { destruct (cache c !! k) as [item|]; [|by simplify_eq].
      apply bind_Ok in H1 as (c0 & Hst & Hmv).
      destruct item as [h|]; [|discriminate]. simpl in Hst. simplify_eq.
      apply same_elems_MoveToFront in Hmv. simpl in Hmv.
      intros h' kv' Hkv'. rewrite Hmv in Hkv'.
      destruct (decide (h' = h)) as [->|Hne].
      - rewrite lookup_insert_eq in Hkv'. simplify_eq. simpl. tauto.
      - rewrite lookup_insert_ne in Hkv' by done. by eapply Hok. }
    destruct (over_capacity c1); [|by simplify_eq].
    apply same_elems_removeOldest in H2.
    intros h' kv' Hkv'. rewrite H2 in Hkv'. by eapply Hok1.
  - intros now k v ok c' H. unfold Get in H.
    destruct (cache c !! k) as [item|]; [|by simplify_eq].
    apply bind_Ok in H as (ex & _ & H). destruct ex; [by simplify_eq|].
    apply bind_Ok in H as (c1 & Hmv & H).
    apply bind_Ok in H as (kv & _ & H).
    apply same_elems_MoveToFront in Hmv. by case_decide; simplify_eq.
  - intros k ok c' H. unfold Remove in H.
    destruct (cache c !! k) as [item|]; [|by simplify_eq].
    apply bind_Ok in H as (c1 & Hrm & H). simplify_eq.
    by apply same_elems_removeElement in Hrm.
  - intros k v ok c' H. unfold RemoveOldest in H.
    destruct (Back c) as [h|]; [|by simplify_eq].
    apply bind_Ok in H as (c1 & Hrm & H).
    apply bind_Ok in H as (kv & _ & H). simplify_eq.
    by apply same_elems_removeElement in Hrm.
  - intros c' H. unfold Purge in H.
    apply bind_Ok in H as (c1 & Hloop & H). simplify_eq. simpl.
    by apply same_elems_Purge_loop with (c0 := c) in Hloop;
      [|intros ? [= <-]].
  - intros sz n c' H. unfold Resize in H.
    apply bind_Ok in H as (c1 & Hrun & H). simplify_eq. simpl.
    by apply same_elems_removeOldest_times in Hrun.
  - intros now k v c' H. unfold Get in H.
    destruct (cache c !! k) as [item|]; [right|by left].
    apply bind_Ok in H as (ex & Hex & H). destruct ex; [done|].
    apply bind_Ok in H as (c1 & Hmv & H).
    apply bind_Ok in H as (kv & Hkv & H).
    apply same_elems_MoveToFront in Hmv.
    case_decide as Hnilv; [|by simplify_eq].
    destruct item as [h|]; [|discriminate]. simpl in Hkv. rewrite Hmv in Hkv.
    destruct (elems c !! h) as [kv'|] eqn:Hh; [|discriminate].
    simplify_eq. by destruct (Hok h kv Hh).
Qed.

Lemma stored_values_never_nil_witness :
  ∃ c', Set_ (two_entries 0 0) 3 (IInt 1) (IStr "z") = Ok c' ∧ entries_ok c'.
Proof.
  destruct (stored_values_never_nil (two_entries 0 0)) as (HS & _).
  - intros h kv Hkv.
    destruct (decide (h = a1)) as [->|?]; [by injection Hkv as <-|].
    destruct (decide (h = a2)) as [->|?]; [by injection Hkv as <-|].
    unfold two_entries in Hkv. simpl in Hkv.
    by rewrite lookup_insert_ne, lookup_singleton_ne in Hkv.
  - eexists. split; [vm_compute; reflexivity|].
    apply (HS 3 (IInt 1) (IStr "z")). vm_compute. reflexivity.
Defined.

End simplelru.
